(** * XStream: a streaming parser for SSE-style text

    A shallow embedding of the three TypeScript modules of the library
    ([combine/splitStream.ts], [combine/splitPart.ts], [core/xstream.ts])
    together with the properties their specification states.

    JavaScript strings are sequences of UTF-16 code units; they are
    modelled as lists of code units.  Objects used as records are finite
    maps from strings to strings. *)

From Stdlib Require Import NArith List Bool Lia.
From stdpp Require Import base list strings gmap sorting.

Open Scope N_scope.
Open Scope nat_scope.

(** ** JavaScript strings *)

Abbreviation code_unit := N (only parsing).
Abbreviation jsstring := (list N) (only parsing).

(** An ASCII literal as a JavaScript string. *)
Definition lit (s : string) : jsstring :=
  map Ascii.N_of_ascii (String.list_ascii_of_string s).
Arguments lit s%_string.

(** The line feed, ["\n"]. *)
Definition LF : jsstring := [10%N].

(** [WhiteSpace] and [LineTerminator] of ECMAScript: the code units that
    [String.prototype.trim] removes. *)
Definition is_ws (c : code_unit) : bool :=
  ((9 <=? c) && (c <=? 13) || (c =? 32) || (c =? 160) || (c =? 5760)
   || (8192 <=? c) && (c <=? 8202) || (c =? 8232) || (c =? 8233)
   || (c =? 8239) || (c =? 8287) || (c =? 12288) || (c =? 65279))%N.

Fixpoint trimStart (s : jsstring) : jsstring :=
  match s with
  | [] => []
  | c :: s' => if is_ws c then trimStart s' else s
  end.

Definition trimEnd (s : jsstring) : jsstring := rev (trimStart (rev s)).

(** [s.trim()] *)
Definition trim (s : jsstring) : jsstring := trimEnd (trimStart s).

(** [s === ''] *)
Definition is_empty (s : jsstring) : bool :=
  match s with [] => true | _ :: _ => false end.

(** [s.trim() !== ''] *)
Definition nonblank (s : jsstring) : bool := negb (is_empty (trim s)).

(** Every code unit of [s] is white space. *)
Definition all_ws (s : jsstring) : bool := forallb is_ws s.

(** [pat] occurs somewhere in [s]. *)
Definition contains (pat s : jsstring) : Prop :=
  exists a b, s = a ++ pat ++ b.

(** [pat] occurs in [s] at position 0. *)
Fixpoint startsWith (pat s : jsstring) : bool :=
  match pat, s with
  | [], _ => true
  | _ :: _, [] => false
  | p :: pat', c :: s' => (p =? c)%N && startsWith pat' s'
  end.

(** [s.indexOf(pat)]: the least position at which [pat] occurs, [None]
    standing for the result -1. *)
Fixpoint indexOf (pat s : jsstring) : option nat :=
  match s with
  | [] => if startsWith pat [] then Some 0 else None
  | _ :: s' => if startsWith pat s then Some 0 else option_map S (indexOf pat s')
  end.

(** The loop of [String.prototype.split] for a non-empty separator: cut at
    the first occurrence, resume after it.  Every round consumes at least
    one code unit, so [length s] rounds are enough. *)
Fixpoint split_from (fuel : nat) (sep s : jsstring) : list jsstring :=
  match indexOf sep s with
  | None => [s]
  | Some j =>
      match fuel with
      | 0 => [s]
      | S fuel' => firstn j s :: split_from fuel' sep (skipn (j + length sep) s)
      end
  end.

(** [s.split(sep)].  With the empty separator the string is cut into its
    code units, and the empty string gives the empty array. *)
Definition split (sep s : jsstring) : list jsstring :=
  match sep with
  | [] => map (fun c => [c]) s
  | _ :: _ => split_from (length s) sep s
  end.

(** ** Transform streams

    A [TransformStream] is a transformer with a private state: [transform]
    is called on every incoming chunk, [flush] once when the input closes,
    and both enqueue zero or more outputs.  [pipeThrough] is what the
    readable side delivers, in order, for a given sequence of chunks. *)

Record TransformStream (I O : Type) := {
  ts_state : Type;
  ts_start : ts_state;
  ts_transform : ts_state -> I -> ts_state * list O;
  ts_flush : ts_state -> list O
}.
Arguments ts_state {I O} _.
Arguments ts_start {I O} _.
Arguments ts_transform {I O} _ _ _.
Arguments ts_flush {I O} _ _.

Fixpoint feed {I O} (ts : TransformStream I O) (st : ts_state ts)
    (chunks : list I) : ts_state ts * list O :=
  match chunks with
  | [] => (st, [])
  | chunk :: rest =>
      let '(st1, out1) := ts_transform ts st chunk in
      let '(st2, out2) := feed ts st1 rest in
      (st2, out1 ++ out2)
  end.

Definition pipeThrough {I O} (ts : TransformStream I O) (chunks : list I) : list O :=
  let '(st, out) := feed ts (ts_start ts) chunks in
  out ++ ts_flush ts st.

(** ** splitStream.ts *)

(** Modelled from the spec: the three constants of [const.ts], which is
    not among the sources.  The configuration table gives the defaults as
    a double line-break, a single line-break and a colon. *)
Definition DEFAULT_STREAM_SEPARATOR : jsstring := LF ++ LF.
Definition DEFAULT_PART_SEPARATOR : jsstring := LF.
Definition DEFAULT_KV_SEPARATOR : jsstring := lit ":".

Module SplitStream.

(** The variable [buffer].  It starts as [''] and is assigned
    [parts[parts.length - 1]], which is [undefined] ([None]) when
    [parts] is empty. *)
Abbreviation buffer_t := (option (list N)) (only parsing).

(** [buffer += chunk]; an [undefined] buffer is converted to the text
    "undefined". *)
Definition append (buffer : buffer_t) (chunk : jsstring) : jsstring :=
  match buffer with
  | Some b => b ++ chunk
  | None => lit "undefined" ++ chunk
  end.

Definition transform (separator : jsstring) (buffer : buffer_t)
    (chunk : jsstring) : buffer_t * list jsstring :=
  let buffer' := append buffer chunk in
  let parts := split separator buffer' in
  (last parts, List.filter nonblank (removelast parts)).

(** [(buffer ?? '').trim() !== ''] guards the final emission. *)
Definition flush (buffer : buffer_t) : list jsstring :=
  match buffer with
  | Some b => if nonblank b then [b] else []
  | None => []
  end.

End SplitStream.

Definition splitStream (separator : jsstring) : TransformStream jsstring jsstring :=
  {| ts_state := option jsstring;
     ts_start := Some [];
     ts_transform := SplitStream.transform separator;
     ts_flush := SplitStream.flush |}.

(** ** splitPart.ts *)

Abbreviation SSEOutput := (gmap (list N) (list N)) (only parsing).

Module SplitPart.

(** The reducer: one line folded into the record under construction. *)
Definition step (kvSeparator : jsstring) (acc : SSEOutput) (line : jsstring)
    : SSEOutput :=
  match indexOf kvSeparator line with
  | None => acc
  | Some sepIndex =>
      let key := firstn sepIndex line in
      if is_empty (trim key) then acc
      else
        let value := trim (skipn (sepIndex + 1) line) in
        <[key := value]> acc
  end.

(** [lines.reduce(..., {})] *)
Definition record (separator kvSeparator partChunk : jsstring) : SSEOutput :=
  fold_left (step kvSeparator) (split separator partChunk) ∅.

(** [Object.keys(sseEvent).length > 0] *)
Definition has_fields (sseEvent : SSEOutput) : bool :=
  bool_decide (0 < size sseEvent).

Definition transform (separator kvSeparator partChunk : jsstring)
    : list SSEOutput :=
  let sseEvent := record separator kvSeparator partChunk in
  if has_fields sseEvent then [sseEvent] else [].

End SplitPart.

Definition splitPart (separator kvSeparator : jsstring)
    : TransformStream jsstring SSEOutput :=
  {| ts_state := unit;
     ts_start := tt;
     ts_transform := fun st partChunk =>
       (st, SplitPart.transform separator kvSeparator partChunk);
     ts_flush := fun _ => [] |}.

(** ** xstream.ts *)

(** *** The pipeline

    [TextDecoderStream] is the platform's decoder; the pipeline is stated
    for any transform from byte chunks to text fragments. *)

Abbreviation Uint8Array := (list Byte.byte) (only parsing).

(** The decoder on chunks of ASCII bytes (below 128), where every byte
    is its own code unit: a chunk gives one fragment, and an empty chunk
    gives none.  It stands for [TextDecoderStream] on such input only, in
    examples; the theorems hold for any decoder. *)
Definition asciiDecoderStream : TransformStream Uint8Array jsstring :=
  {| ts_state := unit;
     ts_start := tt;
     ts_transform := fun st chunk =>
       (st, match chunk with [] => [] | _ => [map Byte.to_N chunk] end);
     ts_flush := fun _ => [] |}.

(** The bytes of an ASCII literal. *)
Definition bytes (s : string) : Uint8Array := String.list_byte_of_string s.
Arguments bytes s%_string.

Section Pipeline.

Variable decoderStream : TransformStream Uint8Array jsstring.

(** The text the decoder produces for a sequence of byte chunks. *)
Definition decoded_text (readableStream : list Uint8Array) : jsstring :=
  concat (pipeThrough decoderStream readableStream).

(** The branch taken without [transformStream]. *)
Definition defaultPipeline (STREAM_SEPARATOR PART_SEPARATOR KV_SEPARATOR : jsstring)
    (readableStream : list Uint8Array) : list SSEOutput :=
  pipeThrough (splitPart PART_SEPARATOR KV_SEPARATOR)
    (pipeThrough (splitStream STREAM_SEPARATOR)
       (pipeThrough decoderStream readableStream)).

End Pipeline.

(** *** The async iterator

    The generator installed as [Symbol.asyncIterator].  One session is one
    generator object.  What the generator meets on each turn of its
    [while (true)] loop is supplied by the environment: either the signal is
    found aborted, and [reader.cancel()] then resolves or rejects, or
    [reader.read()] settles with a value, with [done], or with a
    rejection.  When the environment has nothing more to offer, the
    pending [read()] never settles.

    Callbacks are optional.  A registered callback is given by how each of
    its calls ends: it returns, or it throws.  Since all calls are made
    inside [try], what a callback throws is caught and reported to the
    error callback; what the error callback throws leaves the generator.
    Every call, together with the operations on the reader, is logged in a
    trace, and how a call ends may depend on the trace so far. *)

Module XStream.

Section Iterator.

Context {Output Error : Type}.

(** JavaScript's [ToBoolean] on the values of the final stage: the test
    of [if (value)]. *)
Variable truthy : Output -> bool.

Inductive event :=
| GetReader                      (* this.getReader() *)
| Read                           (* reader.read() *)
| Cancel                         (* reader.cancel() *)
| ReleaseLock                    (* reader.releaseLock() *)
| CbStart
| CbOutput (value : Output)
| CbComplete
| CbAbort
| CbError (error : Error).

(** How a call of a callback ends. *)
Inductive outcome :=
| Returns
| Throws (error : Error).

(** A callback without argument, as a function of the trace at the moment
    of the call. *)
Definition callback : Type := list event -> outcome.

(** The lifecycle callbacks of the options; [None] is an option left
    out. *)
Record XStreamOptions := {
  onSSEOutput : option (list event -> Output -> outcome);
  onSSEError : option (list event -> Error -> outcome);
  onSSEComplete : option callback;
  onSSEAbort : option callback;
  onSSEStart : option callback
}.

(** The callback with its argument supplied. *)
Definition applied {A : Type} (cb : option (list event -> A -> outcome)) (a : A)
    : option callback :=
  match cb with
  | Some f => Some (fun history => f history a)
  | None => None
  end.

(** [callback?.(...)]: the call is logged as [e]; an option left out does
    nothing. *)
Definition call (cb : option callback) (e : event) (tr : list event)
    : list event * outcome :=
  match cb with
  | Some f => (tr ++ [e], f tr)
  | None => (tr, Returns)
  end.

Inductive turn :=
| SignalAborted (rejection : option Error)
                                 (* signal?.aborted holds; reader.cancel()
                                    resolves, or rejects with an error *)
| Value (value : Output)         (* read() gives { done: false, value } *)
| Closed                         (* read() gives { done: true } *)
| Failed (error : Error).        (* read() rejects with error *)

Inductive phase :=
| NotStarted                     (* generator created, body not entered *)
| Running                        (* suspended at [yield] inside the loop *)
| Stalled                        (* awaiting a read() that never settles *)
| Completed                      (* left the loop on [done] *)
| Aborted                        (* left the loop on the signal *)
| Errored (error : Error)        (* left through [catch] *)
| Returned                       (* the consumer returned at a [yield] *)
| Unopened.                      (* finished without entering [try] *)

Record session := {
  phase_of : phase;
  ahead : list turn;             (* what the environment will offer *)
  locked : bool;                 (* the stream's reader lock *)
  trace : list event
}.

(** What a request to the generator settles with. *)
Inductive iter_result :=
| Yield (value : Output)         (* { done: false, value } *)
| Done                           (* { done: true, value: undefined } *)
| ThrownLocked                   (* the TypeError of getReader() on a locked stream *)
| Thrown (error : Error)         (* rejection with an error *)
| Pending.                       (* never settles *)

Variable options : XStreamOptions.

(** The [catch] block followed by [finally]: the error callback is called
    with what was caught and the lock is released; the generator then
    returns, unless the error callback throws. *)
Definition caught (error : Error) (rest : list turn) (tr : list event)
    : iter_result * session :=
  let '(tr1, o) := call (applied (onSSEError options) error) (CbError error) tr in
  (match o with Returns => Done | Throws error' => Thrown error' end,
   {| phase_of := Errored error; ahead := rest; locked := false;
      trace := tr1 ++ [ReleaseLock] |}).

(** What the request settles with when [error] is caught at the given
    trace: the generator returns after [catch], unless the error callback
    throws. *)
Definition settles (error : Error) (history : list event) : iter_result :=
  match onSSEError options with
  | Some f =>
      match f history error with
      | Returns => Done
      | Throws error' => Thrown error'
      end
  | None => Done
  end.

(** The [while (true)] loop with its [catch] and [finally], run until
    the next [yield] or the end of the generator. *)
Fixpoint loop (turns : list turn) (tr : list event) : iter_result * session :=
  match turns with
  | [] =>
      (Pending,
       {| phase_of := Stalled; ahead := []; locked := true; trace := tr ++ [Read] |})
  | SignalAborted (Some error) :: rest => caught error rest (tr ++ [Cancel])
  | SignalAborted None :: rest =>
      let '(tr1, o) := call (onSSEAbort options) CbAbort (tr ++ [Cancel]) in
      match o with
      | Returns =>
          (Done,
           {| phase_of := Aborted; ahead := rest; locked := false;
              trace := tr1 ++ [ReleaseLock] |})
      | Throws error => caught error rest tr1
      end
  | Closed :: rest =>
      let '(tr1, o) := call (onSSEComplete options) CbComplete (tr ++ [Read]) in
      match o with
      | Returns =>
          (Done,
           {| phase_of := Completed; ahead := rest; locked := false;
              trace := tr1 ++ [ReleaseLock] |})
      | Throws error => caught error rest tr1
      end
  | Value value :: rest =>
      if truthy value then
        let '(tr1, o) :=
          call (applied (onSSEOutput options) value) (CbOutput value)
            (tr ++ [Read]) in
        match o with
        | Returns =>
            (Yield value,
             {| phase_of := Running; ahead := rest; locked := true; trace := tr1 |})
        | Throws error => caught error rest tr1
        end
      else loop rest (tr ++ [Read])
  | Failed error :: rest => caught error rest (tr ++ [Read])
  end.

(** [iterator.next()] *)
Definition next (s : session) : iter_result * session :=
  match phase_of s with
  | NotStarted =>
      if locked s then
        (ThrownLocked,
         {| phase_of := Unopened; ahead := ahead s; locked := locked s;
            trace := trace s |})
      else
        let '(tr1, o) := call (onSSEStart options) CbStart (trace s ++ [GetReader]) in
        match o with
        | Returns => loop (ahead s) tr1
        | Throws error => caught error (ahead s) tr1
        end
  | Running => loop (ahead s) (trace s)
  | Stalled => (Pending, s)
  | Completed | Aborted | Errored _ | Returned | Unopened => (Done, s)
  end.

(** [iterator.return()], what [break] in a [for await] loop calls. *)
Definition return_ (s : session) : iter_result * session :=
  match phase_of s with
  | NotStarted =>
      (Done,
       {| phase_of := Unopened; ahead := ahead s; locked := locked s;
          trace := trace s |})
  | Running =>
      (Done,
       {| phase_of := Returned; ahead := ahead s; locked := false;
          trace := trace s ++ [ReleaseLock] |})
  | Stalled => (Pending, s)
  | Completed | Aborted | Errored _ | Returned | Unopened => (Done, s)
  end.

Inductive request := Next | Return.

Definition resume (r : request) (s : session) : iter_result * session :=
  match r with
  | Next => next s
  | Return => return_ s
  end.

(** A consumer is a sequence of requests. *)
Fixpoint run (requests : list request) (s : session)
    : list iter_result * session :=
  match requests with
  | [] => ([], s)
  | r :: rest =>
      let '(res, s1) := resume r s in
      let '(results, s2) := run rest s1 in
      (res :: results, s2)
  end.

(** A fresh generator over an unlocked stream. *)
Definition start (turns : list turn) : session :=
  {| phase_of := NotStarted; ahead := turns; locked := false; trace := [] |}.

(** How a [for await] loop over the stream ends. *)
Inductive completion :=
| Finished                       (* the loop ends normally *)
| Raised (r : iter_result)       (* the loop throws *)
| Hangs.                         (* the loop waits for ever *)

(** [for await (const chunk of stream) results.push(chunk)]: the values
    received and how the loop ends.  Every request consumes a turn or
    ends the loop, so [fuel] above the number of turns is never used up. *)
Fixpoint for_await (fuel : nat) (s : session)
    : list Output * option completion * session :=
  match fuel with
  | 0 => ([], None, s)
  | S fuel' =>
      match next s with
      | (Yield value, s1) =>
          let '(values, c, s2) := for_await fuel' s1 in
          (value :: values, c, s2)
      | (Done, s1) => ([], Some Finished, s1)
      | (Pending, s1) => ([], Some Hangs, s1)
      | (r, s1) => ([], Some (Raised r), s1)
      end
  end.

Definition for_await_of (s : session) :=
  for_await (S (S (length (ahead s)))) s.

(** Classifiers of trace events. *)
Definition is_start (e : event) : bool :=
  match e with CbStart => true | _ => false end.
Definition is_output (e : event) : bool :=
  match e with CbOutput _ => true | _ => false end.
Definition is_complete (e : event) : bool :=
  match e with CbComplete => true | _ => false end.
Definition is_abort (e : event) : bool :=
  match e with CbAbort => true | _ => false end.
Definition is_error (e : event) : bool :=
  match e with CbError _ => true | _ => false end.
Definition is_terminal (e : event) : bool :=
  is_complete e || is_abort e || is_error e.
Definition is_callback (e : event) : bool :=
  is_start e || is_output e || is_terminal e.
Definition is_read (e : event) : bool :=
  match e with Read => true | _ => false end.
Definition is_cancel (e : event) : bool :=
  match e with Cancel => true | _ => false end.
Definition is_release (e : event) : bool :=
  match e with ReleaseLock => true | _ => false end.
Definition is_get_reader (e : event) : bool :=
  match e with GetReader => true | _ => false end.

(** The callback invocations of a trace, in order. *)
Definition callbacks (tr : list event) : list event :=
  List.filter is_callback tr.

Definition count (f : event -> bool) (tr : list event) : nat :=
  length (List.filter f tr).

Definition is_yield (r : iter_result) : bool :=
  match r with Yield _ => true | _ => false end.

(** The terminal states of the lifecycle. *)
Definition terminal (p : phase) : bool :=
  match p with Completed | Aborted | Errored _ => true | _ => false end.

(** The generator has run to its end. *)
Definition finished (p : phase) : bool :=
  match p with NotStarted | Running | Stalled => false | _ => true end.

(** The lock is held exactly while the generator is inside [try]. *)
Definition holds (p : phase) : bool :=
  match p with Running | Stalled => true | _ => false end.

(** An option is present. *)
Definition registered {A : Type} (cb : option A) : bool :=
  match cb with Some _ => true | None => false end.

(** What the call of an optional callback adds to the trace. *)
Definition logged (present : bool) (e : event) : list event :=
  if present then [e] else [].

(** A callback that never throws, whatever the trace and the argument. *)
Definition returns (cb : option callback) : Prop :=
  forall f history, cb = Some f -> f history = Returns.

Definition returns_on {A : Type} (cb : option (list event -> A -> outcome)) : Prop :=
  forall f history a, cb = Some f -> f history a = Returns.

(** The trace with which the next request enters the loop, when it does:
    the generator is suspended at a [yield], or it is fresh, the stream is
    not locked and the start callback does not throw. *)
Definition enters (s : session) : option (list event) :=
  match phase_of s with
  | Running => Some (trace s)
  | NotStarted =>
      if locked s then None
      else
        match call (onSSEStart options) CbStart (trace s ++ [GetReader]) with
        | (tr1, Returns) => Some tr1
        | (_, Throws _) => None
        end
  | _ => None
  end.

(** The shape of traces: an opening, a body of reads and output
    callbacks, and a closing that depends on how the loop was left. *)
Definition is_body (e : event) : bool := is_read e || is_output e.

Definition opening : list event :=
  [GetReader] ++ logged (registered (onSSEStart options)) CbStart.

(** What may lie between the body and the [catch] block: nothing (a read
    was rejected, or the start or output callback threw), the cancellation
    that was rejected, or the abort or complete callback that threw. *)
Definition before_catch (error : Error) (mid : list event) : Prop :=
  mid = [] \/
  mid = [Cancel] \/
  (mid = [Cancel; CbAbort] /\
   exists f history, onSSEAbort options = Some f /\ f history = Throws error) \/
  (mid = [CbComplete] /\
   exists f history, onSSEComplete options = Some f /\ f history = Throws error).

Definition closing (p : phase) (tail : list event) : Prop :=
  match p with
  | NotStarted | Running | Stalled | Unopened => tail = []
  | Completed =>
      tail = logged (registered (onSSEComplete options)) CbComplete ++ [ReleaseLock]
  | Aborted =>
      tail = [Cancel] ++ logged (registered (onSSEAbort options)) CbAbort
               ++ [ReleaseLock]
  | Errored error =>
      exists mid,
        before_catch error mid /\
        tail = mid ++ logged (registered (onSSEError options)) (CbError error)
                 ++ [ReleaseLock]
  | Returned => tail = [ReleaseLock]
  end.

(** What holds of every state of a session. *)
Definition invariant (s : session) : Prop :=
  match phase_of s with
  | NotStarted => trace s = [] /\ locked s = false
  | Unopened => trace s = []
  | p =>
      (exists body tail : list event,
          Forall (fun e => is_body e = true) body /\
          closing p tail /\
          trace s = opening ++ body ++ tail) /\
      locked s = holds p
  end.

(** The order of the lifecycle: start, then outputs, then complete or
    abort, then error. *)
Definition rank (e : event) : nat :=
  if is_start e then 0
  else if is_output e then 1
  else if is_error e then 3
  else 2.

Definition before (x y : event) : Prop :=
  rank x < rank y \/ (rank x = 1 /\ rank y = 1).

(** The values a consumer received, the values passed to the output
    callback, and the values a source offers, each in order. *)
Definition yields (results : list iter_result) : list Output :=
  flat_map (fun r => match r with Yield value => [value] | _ => [] end) results.

Definition outputs (tr : list event) : list Output :=
  flat_map (fun e => match e with CbOutput value => [value] | _ => [] end) tr.

Definition values_of (turns : list turn) : list Output :=
  flat_map (fun t => match t with Value value => [value] | _ => [] end) turns.

(** What the loop logs over a run of values when the output callback does
    not throw: a read for each, and the output callback for the truthy
    ones. *)
Definition body_of (values : list Output) : list event :=
  flat_map
    (fun value =>
       Read :: (if truthy value
                then logged (registered (onSSEOutput options)) (CbOutput value)
                else []))
    values.

(** How a [for await] loop ends on a request that yields nothing. *)
Definition completion_of (r : iter_result) : completion :=
  match r with
  | Yield _ | Done => Finished
  | Pending => Hangs
  | ThrownLocked | Thrown _ => Raised r
  end.

(** A stream that delivers the given values and closes, read without a
    signal. *)
Definition closing_stream (values : list Output) : list turn :=
  map Value values ++ [Closed].

(** What a request has consumed, yielded and reported: the output
    callback has seen the truthy values consumed; the consumer has
    received them too, except the one on which the output callback
    threw. *)
Definition accounted (used : list turn) (results : list iter_result)
    (tr0 : list event) (s' : session) : Prop :=
  outputs (trace s') =
    outputs tr0
      ++ (if registered (onSSEOutput options)
          then List.filter truthy (values_of used) else []) /\
  (yields results = List.filter truthy (values_of used) \/
   exists value f history error,
     List.filter truthy (values_of used) = yields results ++ [value] /\
     onSSEOutput options = Some f /\
     f history value = Throws error /\
     phase_of s' = Errored error).

End Iterator.

(** [ToBoolean] of a string: only the empty string is falsy. *)
Definition truthy_string (value : jsstring) : bool := negb (is_empty value).

(** [ToBoolean] of an object: always true. *)
Definition truthy_object (value : SSEOutput) : bool := true.

(** Options with every callback registered, none of which throws. *)
Definition all_callbacks {Output Error : Type} : @XStreamOptions Output Error :=
{| onSSEOutput := Some (fun _ _ => Returns);
   onSSEError := Some (fun _ _ => Returns);
   onSSEComplete := Some (fun _ => Returns);
   onSSEAbort := Some (fun _ => Returns);
   onSSEStart := Some (fun _ => Returns) |}.

(** The same, with a complete callback that throws. *)
Definition complete_throws {Output Error : Type} (error : Error)
    : @XStreamOptions Output Error :=
{| onSSEOutput := Some (fun _ _ => Returns);
   onSSEError := Some (fun _ _ => Returns);
   onSSEComplete := Some (fun _ => Throws error);
   onSSEAbort := Some (fun _ => Returns);
   onSSEStart := Some (fun _ => Returns) |}.

(** The same, with an output callback that throws. *)
Definition output_throws {Output Error : Type} (error : Error)
    : @XStreamOptions Output Error :=
{| onSSEOutput := Some (fun _ _ => Throws error);
   onSSEError := Some (fun _ _ => Returns);
   onSSEComplete := Some (fun _ => Returns);
   onSSEAbort := Some (fun _ => Returns);
   onSSEStart := Some (fun _ => Returns) |}.

(** The same, with a start callback that throws. *)
Definition start_throws {Output Error : Type} (error : Error)
    : @XStreamOptions Output Error :=
{| onSSEOutput := Some (fun _ _ => Returns);
   onSSEError := Some (fun _ _ => Returns);
   onSSEComplete := Some (fun _ => Returns);
   onSSEAbort := Some (fun _ => Returns);
   onSSEStart := Some (fun _ => Throws error) |}.

(** The same, with an error callback that throws what it is given. *)
Definition error_rethrows {Output Error : Type} : @XStreamOptions Output Error :=
{| onSSEOutput := Some (fun _ _ => Returns);
   onSSEError := Some (fun _ error => Throws error);
   onSSEComplete := Some (fun _ => Returns);
   onSSEAbort := Some (fun _ => Returns);
   onSSEStart := Some (fun _ => Returns) |}.

End XStream.

(** ** Notions used in the statements *)

(** [pieces.join(sep)] *)
Fixpoint join (sep : jsstring) (pieces : list jsstring) : jsstring :=
  match pieces with
  | [] => []
  | [p] => p
  | p :: rest => p ++ sep ++ join sep rest
  end.

(** What one line contributes to the record: the body of the reducer of
    [splitPart] without the accumulator. *)
Definition field_of_line (kvSeparator line : jsstring)
    : option (jsstring * jsstring) :=
  match indexOf kvSeparator line with
  | None => None
  | Some sepIndex =>
      let key := firstn sepIndex line in
      if is_empty (trim key) then None
      else Some (key, trim (skipn (sepIndex + 1) line))
  end.

(** ** The part parser as the specification words it

    A second description of the parser, written from the sentences of the
    specification and not from the code, against which the code is
    compared. *)

Module PartParserSpec.

(** "For each line, locate the first occurrence of the key-value
    delimiter.  No occurrence found: line is discarded.  Key (substring
    before the delimiter) is empty or all-whitespace after trimming: line
    discarded.  Otherwise: key = substring before delimiter (untrimmed,
    used verbatim as the field name); value = substring after the
    delimiter, trimmed of leading/trailing whitespace." *)
Definition pair_of_line (kvDelimiter line : jsstring)
    : option (jsstring * jsstring) :=
  match indexOf kvDelimiter line with
  | None => None
  | Some position =>
      let key := firstn position line in
      if all_ws key then None
      else Some (key, trim (skipn (position + length kvDelimiter) line))
  end.

(** "Split the part into lines on the field delimiter." *)
Definition pairs_of_part (fieldDelimiter kvDelimiter part : jsstring)
    : list (jsstring * jsstring) :=
  omap (pair_of_line kvDelimiter) (split fieldDelimiter part).

(** "Fold all retained key-value pairs into one record, later pairs
    overwriting earlier pairs sharing the same key." *)
Definition record_of_pairs (pairs : list (jsstring * jsstring)) : SSEOutput :=
  fold_left (fun r pair => <[pair.1 := pair.2]> r) pairs ∅.

Definition record_of_part (fieldDelimiter kvDelimiter part : jsstring) : SSEOutput :=
  record_of_pairs (pairs_of_part fieldDelimiter kvDelimiter part).

(** The delimiter-bounded parts of a text that are not empty and not all
    white space. *)
Definition parts_of_text (streamDelimiter text : jsstring) : list jsstring :=
  List.filter (fun part => negb (all_ws part)) (split streamDelimiter text).

(** "If the resulting record has at least one field, emit it; otherwise,
    emit nothing for this part."  The records of a text, in the order of
    its parts. *)
Definition records_of_text (streamDelimiter fieldDelimiter kvDelimiter text : jsstring)
    : list SSEOutput :=
  List.filter (fun r : SSEOutput => negb (bool_decide (r = ∅)))
    (map (record_of_part fieldDelimiter kvDelimiter)
       (parts_of_text streamDelimiter text)).

End PartParserSpec.

(** * Properties *)

(** ** Strings *)

Section StringFacts.

Implicit Types pat sep s a b : list N.

Lemma startsWith_true pat s :
  startsWith pat s = true <-> exists rest, s = pat ++ rest.
Proof.
  revert s; induction pat as [|p pat IH]; intros s; simpl.
  - split; [intros _; exists s; reflexivity | reflexivity].
  - destruct s as [|c s].
    + split; [discriminate | intros [rest H]; discriminate].
    + rewrite andb_true_iff, N.eqb_eq, IH. split.
      * intros [-> [rest ->]]. exists rest. reflexivity.
      * intros [rest H]. injection H as -> ->. eauto.
Qed.

Lemma startsWith_app pat a b :
  startsWith pat a = true -> startsWith pat (a ++ b) = true.
Proof.
  rewrite !startsWith_true. intros [rest ->].
  exists (rest ++ b). now rewrite app_assoc.
Qed.

Lemma indexOf_nil pat :
  indexOf pat [] = if startsWith pat [] then Some 0 else None.
Proof. reflexivity. Qed.

Lemma indexOf_cons pat c s :
  indexOf pat (c :: s) =
  if startsWith pat (c :: s) then Some 0 else option_map S (indexOf pat s).
Proof. reflexivity. Qed.

(** What [indexOf] finds is an occurrence. *)
Lemma indexOf_Some pat s j :
  indexOf pat s = Some j ->
  s = firstn j s ++ pat ++ skipn (j + length pat) s.
Proof.
  revert j; induction s as [|c s IH]; intros j.
  - rewrite indexOf_nil. destruct (startsWith pat []) eqn:E; [|discriminate].
    intros [= <-]. apply startsWith_true in E as [rest E].
    destruct pat; [reflexivity | discriminate].
  - rewrite indexOf_cons. destruct (startsWith pat (c :: s)) eqn:E.
    + intros [= <-]. apply startsWith_true in E as [rest E].
      rewrite E. simpl. now rewrite drop_app_length.
    + destruct (indexOf pat s) as [k|] eqn:Ek; [|discriminate].
      intros [= <-]. simpl. f_equal. now apply IH.
Qed.

Lemma indexOf_bound pat s j :
  indexOf pat s = Some j -> j + length pat <= length s.
Proof.
  revert j; induction s as [|c s IH]; intros j.
  - rewrite indexOf_nil. destruct pat; simpl; [|discriminate].
    intros [= <-]. lia.
  - rewrite indexOf_cons. destruct (startsWith pat (c :: s)) eqn:E.
    + intros [= <-]. apply startsWith_true in E as [rest E].
      rewrite E, length_app. lia.
    + destruct (indexOf pat s) as [k|] eqn:Ek; [|discriminate].
      intros [= <-]. specialize (IH k eq_refl). simpl. lia.
Qed.

(** It is the first one: nothing is found in a string without any. *)
Lemma indexOf_None pat s : indexOf pat s = None <-> ~ contains pat s.
Proof.
  induction s as [|c s IH].
  - rewrite indexOf_nil. destruct (startsWith pat []) eqn:E.
    + split; [discriminate|]. intros H. exfalso. apply H.
      apply startsWith_true in E as [rest E]. exists [], rest. exact E.
    + split; [|reflexivity]. intros _ (a & b & H).
      destruct a; [|discriminate]. simpl in H.
      assert (startsWith pat [] = true) by (apply startsWith_true; eauto).
      congruence.
  - rewrite indexOf_cons. destruct (startsWith pat (c :: s)) eqn:E.
    + split; [discriminate|]. intros H. exfalso. apply H.
      apply startsWith_true in E as [rest E]. exists [], rest. exact E.
    + destruct (indexOf pat s) as [k|] eqn:Ek; simpl.
      * split; [discriminate|]. intros H. exfalso. apply H.
        apply indexOf_Some in Ek. exists (c :: firstn k s), (skipn (k + length pat) s).
        simpl. now f_equal.
      * split; [|reflexivity]. intros _ (a & b & H).
        destruct a as [|c' a]; simpl in H.
        -- assert (startsWith pat (c :: s) = true) by (apply startsWith_true; eauto).
           congruence.
        -- injection H as -> ->. destruct IH as [IH _].
           apply IH; [reflexivity|]. now exists a, b.
Qed.

(** Appending text does not move the first occurrence. *)
Lemma indexOf_app pat a b j :
  indexOf pat a = Some j -> indexOf pat (a ++ b) = Some j.
Proof.
  revert j; induction a as [|c a IH]; intros j.
  - rewrite indexOf_nil. destruct (startsWith pat []) eqn:E; [|discriminate].
    intros [= <-]. simpl. destruct pat; [|discriminate].
    destruct b; reflexivity.
  - rewrite indexOf_cons. simpl app. rewrite indexOf_cons.
    destruct (startsWith pat (c :: a)) eqn:E.
    + intros [= <-].
      change (c :: a ++ b) with ((c :: a) ++ b).
      now rewrite (startsWith_app _ _ b E).
    + destruct (indexOf pat a) as [k|] eqn:Ek; [|discriminate].
      intros [= <-]. rewrite (IH k eq_refl).
      destruct (startsWith pat (c :: a ++ b)) eqn:E'; [|reflexivity].
      (* an occurrence at 0 of the longer string that is not one of the
         shorter would run past the end of [a], but one starts at [k+1] *)
      exfalso. apply indexOf_bound in Ek.
      apply startsWith_true in E' as [rest E'].
      assert (Hlen : length pat <= length (c :: a)) by (simpl; lia).
      assert (startsWith pat (c :: a) = true); [|congruence].
      apply startsWith_true. exists (skipn (length pat) (c :: a)).
      rewrite <- (take_drop (length pat) (c :: a)) at 1. f_equal.
      change (c :: a ++ b) with ((c :: a) ++ b) in E'.
      apply (f_equal (firstn (length pat))) in E'.
      rewrite take_app_le in E' by exact Hlen.
      now rewrite take_app_length in E'.
Qed.

Lemma trimStart_nil_iff s : trimStart s = [] <-> all_ws s = true.
Proof.
  induction s as [|c s IH]; simpl; [easy|].
  destruct (is_ws c); simpl; [exact IH | easy].
Qed.

Lemma all_ws_rev s : all_ws (rev s) = all_ws s.
Proof.
  unfold all_ws. induction s as [|c s IH]; simpl; [reflexivity|].
  rewrite forallb_app, IH. simpl. rewrite andb_true_r. apply andb_comm.
Qed.

Lemma all_ws_trimStart s : all_ws s = false -> all_ws (trimStart s) = false.
Proof.
  induction s as [|c s IH]; simpl; [easy|].
  destruct (is_ws c) eqn:E; simpl; [exact IH | now rewrite E].
Qed.

(** [s.trim() === ''] exactly when [s] is empty or all white space. *)
Lemma trim_nil_iff s : trim s = [] <-> all_ws s = true.
Proof.
  unfold trim, trimEnd. split.
  - intros H. apply (f_equal (@rev N)) in H. rewrite rev_involutive in H.
    simpl in H. apply trimStart_nil_iff in H. rewrite all_ws_rev in H.
    destruct (all_ws s) eqn:E; [reflexivity|].
    apply all_ws_trimStart in E. congruence.
  - intros H. apply trimStart_nil_iff in H. rewrite H. reflexivity.
Qed.

Lemma nonblank_all_ws s : nonblank s = negb (all_ws s).
Proof.
  unfold nonblank. destruct (all_ws s) eqn:E.
  - apply trim_nil_iff in E. now rewrite E.
  - destruct (trim s) eqn:T; [|reflexivity].
    apply trim_nil_iff in T. congruence.
Qed.

End StringFacts.

(** ** [split] with a non-empty separator *)

Section SplitFacts.

Variable sep : list N.
Hypothesis sep_nonempty : sep <> [].

Implicit Types s a b p : list N.

Lemma sep_length : 1 <= length sep.
Proof using sep_nonempty. destruct sep; [congruence | simpl; lia]. Qed.

Lemma split_from_fuel s f1 f2 :
  length s <= f1 -> length s <= f2 ->
  split_from f1 sep s = split_from f2 sep s.
Proof using sep_nonempty.
  revert s f2; induction f1 as [|f1 IH]; intros s f2 H1 H2.
  - destruct s; [|simpl in H1; lia].
    destruct f2; simpl; destruct sep; try congruence; reflexivity.
  - destruct f2 as [|f2].
    + destruct s; [|simpl in H2; lia].
      simpl; destruct sep; try congruence; reflexivity.
    + simpl. destruct (indexOf sep s) as [j|] eqn:E; [|reflexivity].
      f_equal. pose proof (indexOf_bound _ _ _ E). pose proof sep_length.
      apply IH; rewrite length_drop; lia.
Qed.

Lemma split_split_from s : split sep s = split_from (length s) sep s.
Proof using sep_nonempty.
  unfold split. destruct sep; [congruence | reflexivity].
Qed.

(** The defining equation of the loop, without the round counter. *)
Lemma split_eq s :
  split sep s =
  match indexOf sep s with
  | None => [s]
  | Some j => firstn j s :: split sep (skipn (j + length sep) s)
  end.
Proof using sep_nonempty.
  rewrite split_split_from.
  destruct (indexOf sep s) as [j|] eqn:E.
  - pose proof (indexOf_bound _ _ _ E). pose proof sep_length.
    destruct (length s) as [|n] eqn:L; [lia|].
    simpl. rewrite E. f_equal. rewrite split_split_from.
    apply split_from_fuel; rewrite length_drop; lia.
  - destruct (length s); simpl; rewrite E; reflexivity.
Qed.

Lemma split_not_nil s : split sep s <> [].
Proof using sep_nonempty.
  rewrite split_eq. destruct (indexOf sep s); discriminate.
Qed.

Lemma split_without s : ~ contains sep s -> split sep s = [s].
Proof using sep_nonempty.
  intros H. apply indexOf_None in H. rewrite split_eq, H. reflexivity.
Qed.

(** The text before the first occurrence holds no occurrence. *)
Lemma before_first_clean s j :
  indexOf sep s = Some j -> ~ contains sep (firstn j s).
Proof using sep_nonempty.
  intros E H. pose proof (indexOf_bound _ _ _ E) as Hb.
  destruct (indexOf sep (firstn j s)) as [k|] eqn:Ek.
  - pose proof (indexOf_bound _ _ _ Ek) as Hk.
    apply (indexOf_app _ _ (skipn j s)) in Ek.
    rewrite take_drop in Ek. rewrite length_take in Hk.
    pose proof sep_length. assert (k = j) by congruence. lia.
  - apply indexOf_None in Ek. contradiction.
Qed.

(** No piece of a split holds the separator. *)
Lemma split_pieces_clean s p : In p (split sep s) -> ~ contains sep p.
Proof using sep_nonempty.
  remember (length s) as n eqn:Hn. revert s Hn p.
  induction n as [n IH] using lt_wf_ind. intros s -> p.
  rewrite split_eq. destruct (indexOf sep s) as [j|] eqn:E.
  - intros [<- | Hin].
    + now apply before_first_clean.
    + pose proof (indexOf_bound _ _ _ E). pose proof sep_length.
      eapply (IH (length (skipn (j + length sep) s))); [|reflexivity|exact Hin].
      rewrite length_drop. lia.
  - intros [<- | []]. now apply indexOf_None.
Qed.

Lemma removelast_cons_ne {A} (x : A) l :
  l <> [] -> removelast (x :: l) = x :: removelast l.
Proof. destruct l; [congruence | reflexivity]. Qed.

Lemma last_cons_ne {A} (x : A) l : l <> [] -> last (x :: l) = last l.
Proof. destruct l; [congruence | reflexivity]. Qed.

Lemma removelast_last {A} (l : list A) :
  removelast l ++ from_option (fun x => [x]) [] (last l) = l.
Proof.
  induction l as [|x l IH]; [reflexivity|].
  destruct l as [|y l]; [reflexivity|].
  rewrite removelast_cons_ne, last_cons_ne by discriminate.
  rewrite <- app_comm_cons. now rewrite IH.
Qed.

(** Splitting a text in two steps: the pieces completed by the first
    part, then the split of what the first part left open followed by
    the rest.  This is the buffering of [splitStream] in one equation. *)
Lemma split_app a b :
  split sep (a ++ b) =
  removelast (split sep a) ++ split sep (default [] (last (split sep a)) ++ b).
Proof using sep_nonempty.
  remember (length a) as n eqn:Hn. revert a Hn.
  induction n as [n IH] using lt_wf_ind. intros a ->.
  rewrite (split_eq a). destruct (indexOf sep a) as [j|] eqn:E.
  - pose proof (indexOf_bound _ _ _ E) as Hb. pose proof sep_length as Hs.
    rewrite removelast_cons_ne, last_cons_ne by apply split_not_nil.
    rewrite (split_eq (a ++ b)), (indexOf_app _ _ b _ E).
    rewrite take_app_le by lia. rewrite drop_app_le by lia.
    simpl app. f_equal.
    eapply IH; [|reflexivity]. rewrite length_drop. lia.
  - reflexivity.
Qed.

End SplitFacts.

(** ** The splitter *)

Section SplitStreamFacts.

Variable sep : list N.
Hypothesis sep_nonempty : sep <> [].

(** After any sequence of chunks the buffer is the last piece of the
    split of everything received, and what has been enqueued are the
    earlier pieces that are not blank. *)
Lemma feed_splitStream (buffer : list N) (chunks : list (list N)) :
  ~ contains sep buffer ->
  feed (splitStream sep) (Some buffer) chunks =
  (last (split sep (buffer ++ concat chunks)),
   List.filter nonblank (removelast (split sep (buffer ++ concat chunks)))).
Proof using sep_nonempty.
  revert buffer; induction chunks as [|chunk rest IH]; intros buffer Hclean.
  - simpl. rewrite app_nil_r, (split_without sep sep_nonempty _ Hclean).
    reflexivity.
  - cbn [feed splitStream ts_transform]. unfold SplitStream.transform.
    cbn [SplitStream.append].
    pose proof (split_not_nil sep sep_nonempty (buffer ++ chunk)) as Hne.
    destruct (last (split sep (buffer ++ chunk))) as [buffer'|] eqn:Hlast;
      [|apply last_None in Hlast; contradiction].
    assert (Hclean' : ~ contains sep buffer').
    { apply (split_pieces_clean sep sep_nonempty (buffer ++ chunk)).
      apply list_elem_of_In. apply last_Some_elem_of. exact Hlast. }
    fold (splitStream sep).
    specialize (IH buffer' Hclean').
    cbn [splitStream ts_state] in IH |- *. rewrite IH.
    cbn [concat]. rewrite (app_assoc buffer chunk).
    rewrite (split_app sep sep_nonempty (buffer ++ chunk)), Hlast.
    unfold default, from_option, id.
    pose proof (split_not_nil sep sep_nonempty (buffer' ++ concat rest)) as Hne'.
    rewrite last_app. rewrite removelast_app by exact Hne'.
    rewrite List.filter_app.
    destruct (last (split sep (buffer' ++ concat rest))) eqn:Hl;
      [reflexivity | apply last_None in Hl; contradiction].
Qed.

(** The parts emitted for a sequence of chunks, final flush included,
    are the non-blank pieces of the split of the whole text. *)
Lemma pipeThrough_splitStream (chunks : list (list N)) :
  pipeThrough (splitStream sep) chunks =
  List.filter nonblank (split sep (concat chunks)).
Proof using sep_nonempty.
  unfold pipeThrough. cbn [splitStream ts_start].
  fold (splitStream sep).
  assert (Hclean : ~ contains sep []).
  { intros (a & b & H). destruct a, sep; try discriminate; congruence. }
  pose proof (feed_splitStream [] chunks Hclean) as H.
  cbn [app] in H. cbn [splitStream ts_state] in H |- *. rewrite H.
  cbn [ts_flush]. unfold SplitStream.flush.
  rewrite <- (removelast_last (split sep (concat chunks))) at 3.
  rewrite List.filter_app.
  destruct (last (split sep (concat chunks))) as [b|]; simpl.
  - destruct (nonblank b); reflexivity.
  - reflexivity.
Qed.

End SplitStreamFacts.

(** C4.  Re-chunking: for every text and every non-empty delimiter, the
    parts emitted (end-of-input flush included) for any partition of the
    text into fragments are the parts emitted for the text delivered as
    one fragment. *)
Theorem splitStream_rechunk (sep text : list N) (chunks : list (list N)) :
  sep <> [] ->
  concat chunks = text ->
  pipeThrough (splitStream sep) chunks = pipeThrough (splitStream sep) [text].
Proof.
  intros Hsep <-.
  rewrite !(pipeThrough_splitStream sep Hsep). cbn [concat].
  now rewrite app_nil_r.
Qed.

Lemma splitStream_rechunk_witness :
  pipeThrough (splitStream DEFAULT_STREAM_SEPARATOR)
    [lit "data: Chunked "; lit "Message" ++ LF; LF ++ lit "id: 1" ++ LF; LF] =
  pipeThrough (splitStream DEFAULT_STREAM_SEPARATOR)
    [lit "data: Chunked Message" ++ LF ++ LF ++ lit "id: 1" ++ LF ++ LF].
Proof.
  apply splitStream_rechunk; [discriminate | reflexivity].
Defined.

(** C8.  At end of input the splitter emits the remaining buffer as one
    final part exactly when it is non-empty and not all white space, and
    emits it verbatim; "part1\n\npart2\n" gives ["part1"; "part2\n"], and
    a remainder of white space only is dropped. *)
Theorem splitStream_flush_verbatim :
  (forall (sep : list N) (chunks : list (list N)),
      let '(buffer, emitted) := feed (splitStream sep) (Some []) chunks in
      pipeThrough (splitStream sep) chunks =
      emitted ++
      match buffer with
      | Some b => if negb (is_empty b) && negb (all_ws b) then [b] else []
      | None => []
      end) /\
  pipeThrough (splitStream DEFAULT_STREAM_SEPARATOR)
    [lit "part1" ++ LF ++ LF ++ lit "part2" ++ LF] =
  [lit "part1"; lit "part2" ++ LF] /\
  pipeThrough (splitStream DEFAULT_STREAM_SEPARATOR)
    [lit "part1" ++ LF ++ LF ++ lit " " ++ LF] =
  [lit "part1"].
Proof.
  split; [|split; reflexivity].
  intros sep chunks. unfold pipeThrough. cbn [splitStream ts_start].
  fold (splitStream sep).
  destruct (feed (splitStream sep) (Some []) chunks) as [buffer emitted].
  f_equal. cbn [splitStream ts_flush]. unfold SplitStream.flush.
  destruct buffer as [b|]; [|reflexivity].
  rewrite nonblank_all_ws. destruct b; [reflexivity|]. reflexivity.
Qed.

(** C9.  For every fragment sequence and every non-empty delimiter, no
    emitted string, mid-stream part or flushed remainder, contains the
    delimiter. *)
Theorem splitStream_parts_clean (sep part : list N) (chunks : list (list N)) :
  sep <> [] ->
  In part (pipeThrough (splitStream sep) chunks) ->
  ~ contains sep part /\ indexOf sep part = None.
Proof.
  intros Hsep Hin.
  rewrite (pipeThrough_splitStream sep Hsep) in Hin.
  apply List.filter_In in Hin as [Hin _].
  pose proof (split_pieces_clean sep Hsep _ _ Hin) as H.
  split; [exact H | now apply indexOf_None].
Qed.

Lemma splitStream_parts_clean_witness :
  ~ contains (LF ++ LF) (lit "part2" ++ LF) /\
  indexOf (LF ++ LF) (lit "part2" ++ LF) = None.
Proof.
  apply (splitStream_parts_clean (LF ++ LF) (lit "part2" ++ LF)
           [lit "part1" ++ LF; LF ++ lit "part2" ++ LF]).
  - discriminate.
  - vm_compute. right. left. reflexivity.
Defined.

(** ** The parser *)

Lemma pipeThrough_splitPart (separator kvSeparator : list N) (parts : list (list N)) :
  pipeThrough (splitPart separator kvSeparator) parts =
  List.filter SplitPart.has_fields (map (SplitPart.record separator kvSeparator) parts).
Proof.
  unfold pipeThrough.
  assert (H : forall st, feed (splitPart separator kvSeparator) st parts =
            (tt, List.filter SplitPart.has_fields
                   (map (SplitPart.record separator kvSeparator) parts))).
  { induction parts as [|p rest IH]; intros []; [reflexivity|].
    cbn [feed splitPart ts_transform]. fold (splitPart separator kvSeparator).
    rewrite (IH tt). unfold SplitPart.transform. cbn [map List.filter].
    destruct (SplitPart.has_fields _); reflexivity. }
  rewrite H. cbn [splitPart ts_flush]. apply app_nil_r.
Qed.

(** ** The default pipeline *)

(** On key-value delimiters of at most one code unit the reducer of
    [splitPart] does what the specification says of a line. *)
Lemma step_as_specified (kv line : list N) (acc : gmap (list N) (list N)) :
  length kv <= 1 ->
  SplitPart.step kv acc line =
  match PartParserSpec.pair_of_line kv line with
  | Some (key, value) => <[key := value]> acc
  | None => acc
  end.
Proof.
  intros Hkv. unfold SplitPart.step, PartParserSpec.pair_of_line.
  destruct (indexOf kv line) as [j|] eqn:E; [|reflexivity].
  destruct (all_ws (firstn j line)) eqn:Hws.
  - apply trim_nil_iff in Hws. now rewrite Hws.
  - destruct (trim (firstn j line)) eqn:Ht.
    + apply trim_nil_iff in Ht. congruence.
    + cbn [is_empty].
      destruct kv as [|c [|d kv']]; cbn in Hkv; [|reflexivity|lia].
      (* the empty delimiter is found at position 0, where the key is empty *)
      assert (j = 0) as -> by (destruct line; cbn in E; congruence).
      discriminate.
Qed.

Lemma record_as_specified (separator kv partChunk : list N) :
  length kv <= 1 ->
  SplitPart.record separator kv partChunk =
  PartParserSpec.record_of_part separator kv partChunk.
Proof.
  intros Hkv.
  unfold SplitPart.record, PartParserSpec.record_of_part,
    PartParserSpec.record_of_pairs, PartParserSpec.pairs_of_part.
  generalize (∅ : gmap (list N) (list N)) as acc.
  induction (split separator partChunk) as [|line lines IH]; intros acc;
    [reflexivity|].
  cbn [fold_left omap list_omap]. rewrite (step_as_specified kv line acc Hkv).
  fold (omap (PartParserSpec.pair_of_line kv) lines).
  destruct (PartParserSpec.pair_of_line kv line) as [[key value]|]; apply IH.
Qed.

Lemma has_fields_nonempty (r : gmap (list N) (list N)) :
  SplitPart.has_fields r = negb (bool_decide (r = ∅)).
Proof.
  unfold SplitPart.has_fields.
  destruct (bool_decide (r = ∅)) eqn:E.
  - apply bool_decide_eq_true in E. subst.
    apply bool_decide_eq_false. rewrite map_size_empty. lia.
  - apply bool_decide_eq_false in E. apply bool_decide_eq_true.
    destruct (decide (size r = 0)) as [Hz|]; [|lia].
    now apply map_size_empty_iff in Hz.
Qed.

Section PipelineFacts.

Variable decoderStream : TransformStream (list Byte.byte) (list N).

(** C2, as amended.  For every input, every non-empty stream delimiter and
    every key-value delimiter of at most one code unit, the default
    pipeline emits, in input order, one record for each non-blank
    delimiter-bounded part of the decoded text from which at least one
    key-value pair is parseable, each record containing exactly the pairs
    parseable from its part, as the specification defines them; a part
    without a parseable pair emits nothing, so that there are at most as
    many records as parts. *)
Theorem defaultPipeline_records
    (STREAM_SEPARATOR PART_SEPARATOR KV_SEPARATOR : list N)
    (readableStream : list (list Byte.byte)) :
  STREAM_SEPARATOR <> [] ->
  length KV_SEPARATOR <= 1 ->
  defaultPipeline decoderStream STREAM_SEPARATOR PART_SEPARATOR KV_SEPARATOR
    readableStream =
  PartParserSpec.records_of_text STREAM_SEPARATOR PART_SEPARATOR KV_SEPARATOR
    (decoded_text decoderStream readableStream) /\
  length (defaultPipeline decoderStream STREAM_SEPARATOR PART_SEPARATOR
            KV_SEPARATOR readableStream)
  <= length (PartParserSpec.parts_of_text STREAM_SEPARATOR
               (decoded_text decoderStream readableStream)).
Proof using Type.
  intros Hsep Hkv.
  assert (Heq : defaultPipeline decoderStream STREAM_SEPARATOR PART_SEPARATOR
                  KV_SEPARATOR readableStream =
                PartParserSpec.records_of_text STREAM_SEPARATOR PART_SEPARATOR
                  KV_SEPARATOR (decoded_text decoderStream readableStream)).
  { unfold defaultPipeline, PartParserSpec.records_of_text,
      PartParserSpec.parts_of_text.
    rewrite pipeThrough_splitPart, (pipeThrough_splitStream _ Hsep).
    fold (decoded_text decoderStream readableStream).
    rewrite (List.filter_ext nonblank (fun part => negb (all_ws part))
               nonblank_all_ws).
    rewrite (List.filter_ext SplitPart.has_fields
               (fun r => negb (bool_decide (r = ∅))) has_fields_nonempty).
    f_equal. apply map_ext. intros part. now apply record_as_specified. }
  split; [exact Heq|]. rewrite Heq. unfold PartParserSpec.records_of_text.
  etransitivity; [apply List.filter_length_le|]. now rewrite length_map.
Qed.

End PipelineFacts.

Lemma defaultPipeline_records_witness :
  let readableStream :=
    [bytes "data: a" ++ [Byte.x0a; Byte.x0a] ++ bytes "hello" ++ [Byte.x0a];
     [Byte.x0a] ++ bytes "data: b"] in
  defaultPipeline asciiDecoderStream DEFAULT_STREAM_SEPARATOR
    DEFAULT_PART_SEPARATOR DEFAULT_KV_SEPARATOR readableStream =
  PartParserSpec.records_of_text DEFAULT_STREAM_SEPARATOR
    DEFAULT_PART_SEPARATOR DEFAULT_KV_SEPARATOR
    (decoded_text asciiDecoderStream readableStream) /\
  length (defaultPipeline asciiDecoderStream DEFAULT_STREAM_SEPARATOR
            DEFAULT_PART_SEPARATOR DEFAULT_KV_SEPARATOR readableStream)
  <= length (PartParserSpec.parts_of_text DEFAULT_STREAM_SEPARATOR
               (decoded_text asciiDecoderStream readableStream)).
Proof.
  intros readableStream.
  apply (defaultPipeline_records asciiDecoderStream DEFAULT_STREAM_SEPARATOR
           DEFAULT_PART_SEPARATOR DEFAULT_KV_SEPARATOR readableStream).
  - discriminate.
  - cbn. lia.
Defined.

(** The specification's record and the code's differ on the part
    "data=>x" with the key-value delimiter "=>" (see C5), which is why the
    comparison stops at delimiters of one code unit. *)
Lemma record_as_specified_long_delimiter :
  PartParserSpec.record_of_part LF (lit "=>") (lit "data=>x") =
    {[ lit "data" := lit "x" ]} /\
  SplitPart.record LF (lit "=>") (lit "data=>x") = {[ lit "data" := lit ">x" ]}.
Proof. split; vm_compute; reflexivity. Qed.

(** C2 as stated fails: the text "data: a\n\nhello\n\ndata: b" has three
    non-blank delimiter-bounded parts, and the pipeline emits two records,
    because the part "hello" holds no key-value pair. *)
Lemma defaultPipeline_count_counterexample :
  let readableStream :=
    [bytes "data: a" ++ [Byte.x0a; Byte.x0a] ++ bytes "hello"
       ++ [Byte.x0a; Byte.x0a] ++ bytes "data: b"] in
  List.filter nonblank
    (split DEFAULT_STREAM_SEPARATOR
       (decoded_text asciiDecoderStream readableStream)) =
  [lit "data: a"; lit "hello"; lit "data: b"] /\
  defaultPipeline asciiDecoderStream DEFAULT_STREAM_SEPARATOR
    DEFAULT_PART_SEPARATOR DEFAULT_KV_SEPARATOR readableStream =
  [ {[ lit "data" := lit "a" ]}; {[ lit "data" := lit "b" ]} ] /\
  length (defaultPipeline asciiDecoderStream DEFAULT_STREAM_SEPARATOR
            DEFAULT_PART_SEPARATOR DEFAULT_KV_SEPARATOR readableStream)
  <> length (List.filter nonblank
               (split DEFAULT_STREAM_SEPARATOR
                  (decoded_text asciiDecoderStream readableStream))).
Proof. repeat split; vm_compute; (reflexivity || discriminate). Qed.

(** ** The parser on key-value delimiters of one and of several code units *)

Lemma indexOf_single (c : N) (key rest : list N) :
  ~ In c key -> indexOf [c] (key ++ c :: rest) = Some (length key).
Proof.
  induction key as [|k key IH]; intros Hc.
  - cbn. now rewrite N.eqb_refl.
  - cbn [app]. rewrite indexOf_cons. cbn [startsWith].
    destruct (N.eqb_spec c k) as [->|_].
    + exfalso. apply Hc. now left.
    + cbn [andb]. rewrite IH; [reflexivity|]. intros H. apply Hc. now right.
Qed.

(** With a key-value delimiter of one code unit, a line is cut at the
    first delimiter: the key is the text before it, verbatim, and the value
    the text after it, trimmed; an empty value is kept. *)
Lemma step_single (c : N) (acc : gmap (list N) (list N)) (key rest : list N) :
  ~ In c key -> nonblank key = true ->
  SplitPart.step [c] acc (key ++ c :: rest) = <[key := trim rest]> acc.
Proof.
  intros Hc Hkey. unfold SplitPart.step. rewrite (indexOf_single _ _ _ Hc).
  rewrite take_app_length.
  unfold nonblank in Hkey. destruct (is_empty (trim key)); [discriminate|].
  replace (length key + 1) with (length (key ++ [c])) by (rewrite length_app; reflexivity).
  replace (key ++ c :: rest) with ((key ++ [c]) ++ rest) by (now rewrite <- app_assoc).
  now rewrite drop_app_length.
Qed.

Lemma step_single_blank_value (c : N) (acc : gmap (list N) (list N)) (key rest : list N) :
  ~ In c key -> nonblank key = true -> all_ws rest = true ->
  SplitPart.step [c] acc (key ++ c :: rest) = <[key := []]> acc.
Proof.
  intros Hc Hkey Hrest. rewrite (step_single _ _ _ _ Hc Hkey).
  apply trim_nil_iff in Hrest. now rewrite Hrest.
Qed.

Lemma step_blank_key (c : N) (acc : gmap (list N) (list N)) (key rest : list N) :
  ~ In c key -> nonblank key = false ->
  SplitPart.step [c] acc (key ++ c :: rest) = acc.
Proof.
  intros Hc Hkey. unfold SplitPart.step. rewrite (indexOf_single _ _ _ Hc).
  rewrite take_app_length.
  unfold nonblank in Hkey. now destruct (is_empty (trim key)).
Qed.

Lemma step_no_delimiter (kv : list N) (acc : gmap (list N) (list N)) (line : list N) :
  ~ contains kv line -> SplitPart.step kv acc line = acc.
Proof.
  intros H. apply indexOf_None in H. unfold SplitPart.step. now rewrite H.
Qed.

Lemma has_fields_insert (acc : gmap (list N) (list N)) (key value : list N) :
  SplitPart.has_fields (<[key := value]> acc) = true.
Proof.
  unfold SplitPart.has_fields. apply bool_decide_eq_true.
  destruct (acc !! key) eqn:E.
  - rewrite map_size_insert_Some by eauto.
    destruct (decide (size acc = 0)) as [Hz|]; [|lia].
    apply map_size_empty_iff in Hz. subst. rewrite lookup_empty in E. discriminate.
  - rewrite map_size_insert_None by exact E. lia.
Qed.

(** C5 at a delimiter of two code units: the parser resumes one code unit
    after the start of the delimiter, so for the part "data=>x" and the
    key-value delimiter "=>" the value is ">x". *)
Theorem splitPart_long_delimiter_value :
  pipeThrough (splitPart DEFAULT_PART_SEPARATOR (lit "=>")) [lit "data=>x"] =
  [ {[ lit "data" := lit ">x" ]} ].
Proof. vm_compute. reflexivity. Qed.

(** C10 at a delimiter of two code units: for the line "data=>" and the
    key-value delimiter "=>" nothing follows the delimiter, and the field
    is mapped to ">". *)
Theorem splitPart_long_delimiter_empty_value :
  pipeThrough (splitPart DEFAULT_PART_SEPARATOR (lit "=>")) [lit "data=>"] =
  [ {[ lit "data" := lit ">" ]} ].
Proof. vm_compute. reflexivity. Qed.

(** With the default configuration the lines "data:" and "data:   " give
    the field [data] with the empty value, and the record is emitted. *)
Lemma splitPart_default_empty_value :
  pipeThrough (splitPart DEFAULT_PART_SEPARATOR DEFAULT_KV_SEPARATOR)
    [lit "data:"; lit "data:   "] =
  [ {[ lit "data" := [] ]}; {[ lit "data" := [] ]} ].
Proof. vm_compute. reflexivity. Qed.

(** ** The async iterator *)

Import XStream.

Section IteratorFacts.

Context {Output Error : Type}.
Variable truthy : Output -> bool.
Variable options : @XStreamOptions Output Error.

Local Abbreviation event := (@event Output Error).
Local Abbreviation turn := (@turn Output Error).
Local Abbreviation session := (@session Output Error).
Local Abbreviation iter_result := (@iter_result Output Error).
Local Abbreviation callback := (@callback Output Error).
Local Abbreviation caught := (caught options).
Local Abbreviation settles := (settles options).
Local Abbreviation loop := (loop truthy options).
Local Abbreviation next := (next truthy options).
Local Abbreviation run := (run truthy options).
Local Abbreviation resume := (resume truthy options).
Local Abbreviation for_await := (for_await truthy options).
Local Abbreviation for_await_of := (for_await_of truthy options).
Local Abbreviation enters := (enters options).
Local Abbreviation opening := (opening options).
Local Abbreviation closing := (closing options).
Local Abbreviation before_catch := (before_catch options).
Local Abbreviation invariant := (invariant options).
Local Abbreviation body_of := (body_of truthy options).

Implicit Types (s : session) (tr body : list event) (turns : list turn).

(** *** Finished generators do nothing *)

Lemma run_finished s (requests : list request) :
  finished (phase_of s) = true ->
  run requests s = (map (fun _ => Done) requests, s).
Proof using Type.
  intros H. induction requests as [|r rest IH]; [reflexivity|].
  cbn [XStream.run map].
  assert (Hr : resume r s = (Done, s)).
  { destruct r; cbn [XStream.resume]; unfold XStream.next, XStream.return_;
      destruct (phase_of s); try discriminate; reflexivity. }
  rewrite Hr, IH. reflexivity.
Qed.

Lemma first_request s (r : iter_result) s1 (more : list request) :
  next s = (r, s1) ->
  finished (phase_of s1) = true ->
  run (Next :: more) s = (r :: map (fun _ => Done) more, s1).
Proof using Type.
  intros Hnext Hfin. cbn [XStream.run XStream.resume]. rewrite Hnext.
  now rewrite (run_finished s1 more Hfin).
Qed.

(** *** Calls and the [catch] block *)

Lemma call_trace (cb : option callback) (e : event) tr :
  (call cb e tr).1 = tr ++ logged (registered cb) e.
Proof using Type. destruct cb; cbn; [reflexivity | now rewrite app_nil_r]. Qed.

Lemma caught_eq (error : Error) (rest : list turn) tr :
  caught error rest tr =
  (settles error tr,
   {| phase_of := Errored error; ahead := rest; locked := false;
      trace := tr ++ logged (registered (onSSEError options)) (CbError error)
                  ++ [ReleaseLock] |}).
Proof using Type.
  unfold XStream.caught, XStream.settles, applied, call.
  destruct (onSSEError options) as [f|]; cbn.
  - now rewrite <- app_assoc.
  - reflexivity.
Qed.

(** *** The invariant *)

Lemma logged_body (present : bool) (value : Output) :
  Forall (fun e : event => is_body e = true) (logged present (CbOutput value)).
Proof using Type. destruct present; repeat constructor. Qed.

Lemma caught_invariant (error : Error) (rest : list turn) tr body mid :
  tr = opening ++ body ++ mid ->
  Forall (fun e => is_body e = true) body ->
  before_catch error mid ->
  invariant (caught error rest tr).2.
Proof using Type.
  intros -> Hbody Hmid. rewrite caught_eq. split; [|reflexivity].
  exists body, (mid ++ logged (registered (onSSEError options)) (CbError error)
                  ++ [ReleaseLock]).
  split; [exact Hbody|]. split.
  - exists mid. split; [exact Hmid | reflexivity].
  - cbn [snd trace]. now rewrite <- !app_assoc.
Qed.

Lemma loop_invariant turns tr body :
  tr = opening ++ body ->
  Forall (fun e => is_body e = true) body ->
  invariant (loop turns tr).2.
Proof using Type.
  revert tr body.
  induction turns as [|t rest IH]; intros tr body -> Hbody.
  - split; [|reflexivity]. exists (body ++ [Read]), []. split; [|split].
    + apply Forall_app. split; [exact Hbody | repeat constructor].
    + reflexivity.
    + cbn [XStream.loop snd trace]. now rewrite app_nil_r, <- !app_assoc.
  - destruct t as [[error|]|value| |error]; cbn [XStream.loop].
    + apply (caught_invariant error rest _ body [Cancel]).
      * now rewrite <- !app_assoc.
      * exact Hbody.
      * right. now left.
    + unfold call. destruct (onSSEAbort options) as [f|] eqn:Hf.
      * destruct (f ((opening ++ body) ++ [Cancel])) as [|error] eqn:Ho.
        -- split; [|reflexivity].
           exists body, ([Cancel] ++ [CbAbort] ++ [ReleaseLock]).
           split; [exact Hbody|]. split.
           ++ cbn [XStream.closing]. now rewrite Hf.
           ++ cbn [snd trace]. now rewrite <- !app_assoc.
        -- apply (caught_invariant error rest _ body [Cancel; CbAbort]).
           ++ now rewrite <- !app_assoc.
           ++ exact Hbody.
           ++ right. right. left. split; [reflexivity|]. eauto.
      * split; [|reflexivity].
        exists body, ([Cancel] ++ [ReleaseLock]).
        split; [exact Hbody|]. split.
        -- cbn [XStream.closing]. now rewrite Hf.
        -- cbn [snd trace]. now rewrite <- !app_assoc.
    + destruct (truthy value).
      * unfold call, applied. destruct (onSSEOutput options) as [f|] eqn:Hf.
        -- destruct (f ((opening ++ body) ++ [Read]) value) as [|error] eqn:Ho.
           ++ split; [|reflexivity].
              exists (body ++ [Read; CbOutput value]), []. split; [|split].
              ** apply Forall_app. split; [exact Hbody | repeat constructor].
              ** reflexivity.
              ** cbn [snd trace]. now rewrite app_nil_r, <- !app_assoc.
           ++ apply (caught_invariant error rest _
                       (body ++ [Read; CbOutput value]) []).
              ** now rewrite app_nil_r, <- !app_assoc.
              ** apply Forall_app. split; [exact Hbody | repeat constructor].
              ** now left.
        -- split; [|reflexivity].
           exists (body ++ [Read]), []. split; [|split].
           ++ apply Forall_app. split; [exact Hbody | repeat constructor].
           ++ reflexivity.
           ++ cbn [snd trace]. now rewrite app_nil_r, <- !app_assoc.
      * apply (IH _ (body ++ [Read])).
        -- now rewrite <- !app_assoc.
        -- apply Forall_app. split; [exact Hbody | repeat constructor].
    + unfold call. destruct (onSSEComplete options) as [f|] eqn:Hf.
      * destruct (f ((opening ++ body) ++ [Read])) as [|error] eqn:Ho.
        -- split; [|reflexivity].
           exists (body ++ [Read]), ([CbComplete] ++ [ReleaseLock]).
           split; [|split].
           ++ apply Forall_app. split; [exact Hbody | repeat constructor].
           ++ cbn [XStream.closing]. now rewrite Hf.
           ++ cbn [snd trace]. now rewrite <- !app_assoc.
        -- apply (caught_invariant error rest _ (body ++ [Read]) [CbComplete]).
           ++ now rewrite <- !app_assoc.
           ++ apply Forall_app. split; [exact Hbody | repeat constructor].
           ++ right. right. right. split; [reflexivity|]. eauto.
      * split; [|reflexivity].
        exists (body ++ [Read]), [ReleaseLock]. split; [|split].
        -- apply Forall_app. split; [exact Hbody | repeat constructor].
        -- cbn [XStream.closing]. now rewrite Hf.
        -- cbn [snd trace]. now rewrite <- !app_assoc.
    + apply (caught_invariant error rest _ (body ++ [Read]) []).
      * now rewrite app_nil_r, <- !app_assoc.
      * apply Forall_app. split; [exact Hbody | repeat constructor].
      * now left.
Qed.

Lemma start_invariant turns : invariant (start turns).
Proof using Type. split; reflexivity. Qed.

(** The trace with which the loop is entered is an opening and a body. *)
Lemma enters_shape s tr :
  invariant s -> enters s = Some tr ->
  exists body, tr = opening ++ body /\ Forall (fun e => is_body e = true) body.
Proof using Type.
  unfold XStream.invariant, XStream.enters. intros Hinv.
  destruct (phase_of s); try discriminate.
  - destruct Hinv as [Htr Hl]. rewrite Hl, Htr.
    unfold call, XStream.opening.
    destruct (onSSEStart options) as [f|]; cbn.
    + destruct (f [GetReader]); [|discriminate].
      intros [= <-]. exists []. split; [reflexivity | constructor].
    + intros [= <-]. exists []. split; [reflexivity | constructor].
  - destruct Hinv as [(body & tail & Hbody & Htail & Htr) _].
    cbn in Htail. subst tail. intros [= <-]. exists body.
    split; [now rewrite Htr, app_nil_r | exact Hbody].
Qed.

Lemma next_enters s tr : enters s = Some tr -> next s = loop (ahead s) tr.
Proof using Type.
  unfold XStream.enters, XStream.next.
  destruct (phase_of s); try discriminate.
  - destruct (locked s); [discriminate|].
    destruct (call (onSSEStart options) CbStart (trace s ++ [GetReader]))
      as [tr1 [|error]]; [|discriminate].
    now intros [= <-].
  - now intros [= <-].
Qed.

Lemma resume_invariant (r : request) s :
  invariant s -> invariant (resume r s).2.
Proof using Type.
  intros Hinv. destruct r; cbn [XStream.resume].
  - destruct (enters s) as [tr|] eqn:He.
    + rewrite (next_enters s tr He).
      destruct (enters_shape s tr Hinv He) as (body & -> & Hbody).
      now apply (loop_invariant _ _ body).
    + unfold XStream.next. unfold XStream.enters in He.
      destruct (phase_of s) eqn:Hp; try discriminate; try exact Hinv.
      destruct (locked s) eqn:Hl.
      * unfold XStream.invariant. cbn. unfold XStream.invariant in Hinv.
        rewrite Hp in Hinv. apply Hinv.
      * unfold XStream.invariant in Hinv. rewrite Hp in Hinv.
        destruct Hinv as [Htr _]. rewrite Htr in *.
        unfold call in *. destruct (onSSEStart options) as [f|] eqn:Hf;
          [|discriminate].
        cbn [app] in *. destruct (f [GetReader]) as [|error]; [discriminate|].
        apply (caught_invariant error (ahead s) _ [] []).
        -- unfold XStream.opening. rewrite Hf. reflexivity.
        -- constructor.
        -- now left.
  - unfold XStream.return_.
    destruct (phase_of s) eqn:Hp; try exact Hinv.
    + unfold XStream.invariant in *. rewrite Hp in Hinv. cbn. apply Hinv.
    + unfold XStream.invariant in *. rewrite Hp in Hinv. cbn.
      destruct Hinv as [(body & tail & Hbody & Htail & Htr) _].
      cbn in Htail. subst tail. split; [|reflexivity].
      exists body, [ReleaseLock]. split; [exact Hbody|]. split; [reflexivity|].
      rewrite Htr. now rewrite app_nil_r, <- !app_assoc.
Qed.

Lemma run_invariant (requests : list request) s :
  invariant s -> invariant (run requests s).2.
Proof using Type.
  revert s; induction requests as [|r rest IH]; intros s Hinv; [exact Hinv|].
  cbn [XStream.run].
  pose proof (resume_invariant r s Hinv) as H1.
  destruct (resume r s) as [res s1]. cbn [snd] in H1.
  specialize (IH s1 H1). now destruct (run rest s1) as [results s2].
Qed.

Lemma reachable_invariant turns (requests : list request) :
  invariant (run requests (start turns)).2.
Proof using Type. apply run_invariant, start_invariant. Qed.

(** *** Callbacks that do not throw *)

Lemma call_returns (cb : option callback) (e : event) tr :
  returns cb -> call cb e tr = (tr ++ logged (registered cb) e, Returns).
Proof using Type.
  intros H. destruct cb as [f|]; cbn.
  - now rewrite (H f tr eq_refl).
  - now rewrite app_nil_r.
Qed.

Lemma call_returns_on {A : Type} (cb : option (list event -> A -> outcome))
    (a : A) (e : event) tr :
  returns_on cb ->
  call (applied cb a) e tr = (tr ++ logged (registered cb) e, Returns).
Proof using Type.
  intros H. destruct cb as [f|]; cbn.
  - now rewrite (H f tr a eq_refl).
  - now rewrite app_nil_r.
Qed.

Lemma next_start turns :
  returns (onSSEStart options) -> next (start turns) = loop turns opening.
Proof using Type.
  intros H. unfold XStream.next, start. cbn [phase_of locked ahead trace app].
  now rewrite (call_returns _ _ _ H).
Qed.

Lemma enters_start turns :
  returns (onSSEStart options) -> enters (start turns) = Some opening.
Proof using Type.
  intros H. unfold XStream.enters, start. cbn [phase_of locked ahead trace app].
  now rewrite (call_returns _ _ _ H).
Qed.

(** *** Callbacks in a trace *)

Lemma filter_body (f : event -> bool) body :
  (forall e, is_body e = true -> f e = false) ->
  Forall (fun e => is_body e = true) body ->
  List.filter f body = [].
Proof using Type.
  intros Hf Hbody. induction Hbody as [|e body He _ IH]; [reflexivity|].
  cbn. now rewrite (Hf e He).
Qed.

Lemma count_app (f : event -> bool) (a b : list event) :
  count f (a ++ b) = count f a + count f b.
Proof using Type. unfold count. now rewrite List.filter_app, length_app. Qed.

Lemma count_body (f : event -> bool) body :
  (forall e, is_body e = true -> f e = false) ->
  Forall (fun e => is_body e = true) body ->
  count f body = 0.
Proof using Type. intros Hf Hbody. unfold count. now rewrite filter_body. Qed.

Lemma repeat_read_body n :
  Forall (fun e : event => is_body e = true) (repeat Read n).
Proof using Type. induction n; cbn; constructor; [reflexivity | assumption]. Qed.

Lemma callbacks_body body :
  Forall (fun e => is_body e = true) body ->
  Forall (fun e => rank e = 1) (callbacks body).
Proof using Type.
  intros Hbody. induction Hbody as [|e body He _ IH]; [constructor|].
  unfold callbacks in *. cbn [List.filter].
  destruct e; try discriminate; cbn; [exact IH | constructor; [reflexivity | exact IH]].
Qed.

Lemma callbacks_opening :
  callbacks opening = logged (registered (onSSEStart options)) CbStart.
Proof using Type. unfold XStream.opening. now destruct (onSSEStart options). Qed.

Lemma callbacks_closing (p : phase) (tail : list event) :
  closing p tail ->
  exists mids errs,
    callbacks tail = mids ++ errs /\
    Forall (fun e => rank e = 2) mids /\ length mids <= 1 /\
    Forall (fun e => rank e = 3) errs /\ length errs <= 1.
Proof using Type.
  destruct p as [| | | | |error| |]; cbn [XStream.closing];
    try (intros ->; exists [], []; cbn; repeat split; first [lia | constructor]).
  - intros ->. exists (logged (registered (onSSEComplete options)) CbComplete), [].
    destruct (onSSEComplete options); cbn; repeat split;
      first [lia | repeat constructor].
  - intros ->. exists (logged (registered (onSSEAbort options)) CbAbort), [].
    destruct (onSSEAbort options); cbn; repeat split;
      first [lia | repeat constructor].
  - intros (mid & Hmid & ->).
    exists (callbacks mid), (logged (registered (onSSEError options)) (CbError error)).
    unfold callbacks. rewrite !List.filter_app.
    destruct Hmid as [-> | [-> | [[-> _] | [-> _]]]];
      destruct (onSSEError options); cbn; repeat split;
      first [lia | repeat constructor].
Qed.

(** The callbacks of a session: nothing before the generator is
    entered, and then the start, the outputs, at most one of complete and
    abort, and at most one error. *)
Lemma invariant_callbacks s :
  invariant s ->
  callbacks (trace s) = [] \/
  exists outs mids errs,
    callbacks (trace s) =
      logged (registered (onSSEStart options)) CbStart ++ outs ++ mids ++ errs /\
    Forall (fun e => rank e = 1) outs /\
    Forall (fun e => rank e = 2) mids /\ length mids <= 1 /\
    Forall (fun e => rank e = 3) errs /\ length errs <= 1.
Proof using Type.
  unfold XStream.invariant. intros Hinv.
  assert (Hgen : forall p,
    (exists body tail, Forall (fun e => is_body e = true) body /\
                       closing p tail /\ trace s = opening ++ body ++ tail) ->
    exists outs mids errs,
      callbacks (trace s) =
        logged (registered (onSSEStart options)) CbStart ++ outs ++ mids ++ errs /\
      Forall (fun e => rank e = 1) outs /\
      Forall (fun e => rank e = 2) mids /\ length mids <= 1 /\
      Forall (fun e => rank e = 3) errs /\ length errs <= 1).
  { intros p (body & tail & Hbody & Htail & ->).
    destruct (callbacks_closing p tail Htail) as (mids & errs & Hc & H).
    exists (callbacks body), mids, errs.
    split; [|split; [now apply callbacks_body | exact H]].
    rewrite <- Hc. unfold callbacks at 1. rewrite !List.filter_app.
    fold (callbacks opening). now rewrite callbacks_opening. }
  destruct (phase_of s) as [| | | | |error| |] eqn:Hp.
  - left. destruct Hinv as [-> _]. reflexivity.
  - right. apply (Hgen Running), Hinv.
  - right. apply (Hgen Stalled), Hinv.
  - right. apply (Hgen Completed), Hinv.
  - right. apply (Hgen Aborted), Hinv.
  - right. apply (Hgen (Errored error)), Hinv.
  - right. apply (Hgen Returned), Hinv.
  - left. rewrite Hinv. reflexivity.
Qed.

Lemma sorted_short (l : list event) :
  length l <= 1 -> StronglySorted before l.
Proof using Type.
  destruct l as [|x [|y l]]; cbn; intros H;
    [constructor | repeat constructor | lia].
Qed.

Lemma sorted_outputs (l : list event) :
  Forall (fun e => rank e = 1) l -> StronglySorted before l.
Proof using Type.
  induction 1 as [|x l Hx Hl IH]; constructor; [exact IH|].
  eapply Forall_impl; [exact Hl|]. intros y Hy. right. now split.
Qed.

Lemma invariant_sorted s :
  invariant s -> StronglySorted before (callbacks (trace s)).
Proof using Type.
  intros Hinv.
  destruct (invariant_callbacks _ Hinv)
    as [-> | (outs & mids & errs & -> & Ho & Hm & Hlm & He & Hle)];
    [constructor|].
  rewrite Forall_forall in Ho, Hm, He.
  assert (Hs : forall x : event,
            x ∈ logged (registered (onSSEStart options)) CbStart -> rank x = 0).
  { intros x Hx. destruct (onSSEStart options); cbn in Hx;
      [|now apply elem_of_nil in Hx].
    apply list_elem_of_singleton in Hx. now subst. }
  apply StronglySorted_app. split; [|split].
  - intros x y Hx Hy. left. rewrite (Hs x Hx).
    apply elem_of_app in Hy as [Hy | Hy]; [rewrite (Ho y Hy); lia|].
    apply elem_of_app in Hy as [Hy | Hy];
      [rewrite (Hm y Hy) | rewrite (He y Hy)]; lia.
  - apply sorted_short. destruct (onSSEStart options); cbn; lia.
  - apply StronglySorted_app. split; [|split].
    + intros x y Hx Hy. left. rewrite (Ho x Hx).
      apply elem_of_app in Hy as [Hy | Hy];
        [rewrite (Hm y Hy) | rewrite (He y Hy)]; lia.
    + apply sorted_outputs. now apply Forall_forall.
    + apply StronglySorted_app. split; [|split].
      * intros x y Hx Hy. left. rewrite (Hm x Hx), (He y Hy). lia.
      * now apply sorted_short.
      * now apply sorted_short.
Qed.

Lemma sorted_split (t1 t2 : list event) (x : event) :
  StronglySorted before (t1 ++ x :: t2) ->
  Forall (fun y => before y x) t1 /\ Forall (before x) t2.
Proof using Type.
  intros H. apply StronglySorted_app in H as (Hcross & _ & H2).
  split.
  - apply Forall_forall. intros y Hy. apply Hcross; [exact Hy | left].
  - now apply StronglySorted_cons in H2 as [H2 _].
Qed.

Lemma rank_output (x : event) : is_output x = true -> rank x = 1.
Proof using Type. destruct x; cbn; congruence. Qed.

Lemma rank_le (x : event) : rank x <= 3.
Proof using Type. destruct x; cbn; lia. Qed.

Lemma after_error (x : event) (t2 : list event) :
  is_error x = true -> Forall (before x) t2 -> t2 = [].
Proof using Type.
  intros Hx H. assert (rank x = 3) by (destruct x; cbn in *; congruence).
  destruct H as [|y t2 [Hy | [Hy _]] _]; [reflexivity | | lia].
  pose proof (rank_le y). lia.
Qed.

(** Complete and abort throw only when registered: when neither throws,
    a session has at most one terminal callback. *)
Lemma closing_terminal (p : phase) (tail : list event) :
  closing p tail ->
  returns (onSSEComplete options) -> returns (onSSEAbort options) ->
  count is_terminal tail <= 1.
Proof using Type.
  intros Htail Hc Ha.
  destruct p as [| | | | |error| |]; cbn [XStream.closing] in Htail;
    try (subst tail; cbn; lia).
  - subst tail. destruct (onSSEComplete options); cbn; lia.
  - subst tail. destruct (onSSEAbort options); cbn; lia.
  - destruct Htail as (mid & Hmid & ->).
    destruct Hmid as [-> | [-> | [[-> (f & h & Hf & Ht)] | [-> (f & h & Hf & Ht)]]]].
    + destruct (onSSEError options); cbn; lia.
    + destruct (onSSEError options); cbn; lia.
    + rewrite (Ha f h Hf) in Ht. discriminate.
    + rewrite (Hc f h Hf) in Ht. discriminate.
Qed.

Lemma count_opening (f : event -> bool) :
  f GetReader = false -> f CbStart = false -> count f opening = 0.
Proof using Type.
  intros H1 H2. unfold XStream.opening, count.
  destruct (onSSEStart options); cbn; rewrite H1, ?H2; reflexivity.
Qed.

Lemma invariant_terminal s :
  invariant s ->
  returns (onSSEComplete options) -> returns (onSSEAbort options) ->
  count is_terminal (trace s) <= 1.
Proof using Type.
  unfold XStream.invariant. intros Hinv Hc Ha.
  assert (Hgen : forall p,
    (exists body tail, Forall (fun e => is_body e = true) body /\
                       closing p tail /\ trace s = opening ++ body ++ tail) ->
    count is_terminal (trace s) <= 1).
  { intros p (body & tail & Hbody & Htail & ->).
    rewrite !count_app, count_opening, (count_body is_terminal body); try reflexivity;
      [| intros e; destruct e; cbn; congruence | exact Hbody].
    apply (closing_terminal p tail Htail Hc Ha). }
  destruct (phase_of s) as [| | | | |error| |] eqn:Hp.
  - destruct Hinv as [-> _]. cbn. lia.
  - apply (Hgen Running), Hinv.
  - apply (Hgen Stalled), Hinv.
  - apply (Hgen Completed), Hinv.
  - apply (Hgen Aborted), Hinv.
  - apply (Hgen (Errored error)), Hinv.
  - apply (Hgen Returned), Hinv.
  - rewrite Hinv. cbn. lia.
Qed.

(** *** Yields *)

Lemma caught_not_yield (error : Error) (rest : list turn) tr :
  is_yield (caught error rest tr).1 = false.
Proof using Type.
  rewrite caught_eq. unfold XStream.settles. cbn [fst].
  destruct (onSSEError options) as [f|]; [destruct (f tr error)|]; reflexivity.
Qed.

Lemma loop_yield turns tr (value : Output) s1 :
  loop turns tr = (Yield value, s1) ->
  length (ahead s1) < length turns /\ truthy value = true.
Proof using Type.
  revert tr; induction turns as [|t rest IH]; intros tr; [discriminate|].
  assert (Hc : forall error tr', caught error rest tr' <> (Yield value, s1)).
  { intros error tr' H. pose proof (caught_not_yield error rest tr') as Hy.
    rewrite H in Hy. discriminate. }
  destruct t as [[error|]|v| |error]; cbn [XStream.loop].
  - intros H. now apply Hc in H.
  - destruct (call (onSSEAbort options) CbAbort (tr ++ [Cancel])) as [tr1 [|e]];
      [discriminate | intros H; now apply Hc in H].
  - destruct (truthy v) eqn:Hv.
    + destruct (call (applied (onSSEOutput options) v) (CbOutput v) (tr ++ [Read]))
        as [tr1 [|e]]; [|intros H; now apply Hc in H].
      intros [= <- <-]. cbn. split; [lia | exact Hv].
    + intros H. apply IH in H. cbn. split; [lia | apply H].
  - destruct (call (onSSEComplete options) CbComplete (tr ++ [Read])) as [tr1 [|e]];
      [discriminate | intros H; now apply Hc in H].
  - intros H. now apply Hc in H.
Qed.

Lemma next_yield s (value : Output) s1 :
  next s = (Yield value, s1) ->
  length (ahead s1) < length (ahead s) /\ truthy value = true.
Proof using Type.
  unfold XStream.next. destruct (phase_of s); try discriminate.
  - destruct (locked s); [discriminate|].
    destruct (call (onSSEStart options) CbStart (trace s ++ [GetReader]))
      as [tr1 [|e]]; [apply loop_yield|].
    intros H. pose proof (caught_not_yield e (ahead s) tr1) as Hy.
    rewrite H in Hy. discriminate.
  - apply loop_yield.
Qed.

(** The consumer's loop always ends in one of the three ways: the fuel of
    [for_await_of] is never used up. *)
Lemma for_await_total fuel s :
  length (ahead s) < fuel -> (for_await fuel s).1.2 <> None.
Proof using Type.
  revert s; induction fuel as [|fuel IH]; intros s Hfuel; [lia|].
  cbn [XStream.for_await].
  destruct (next s) as [r s1] eqn:Hnext.
  destruct r as [value| | | |]; try discriminate.
  apply next_yield in Hnext as [Hnext _].
  specialize (IH s1 ltac:(lia)).
  destruct (for_await fuel s1) as [[values c] s2]. exact IH.
Qed.

Lemma for_await_of_total s : (for_await_of s).1.2 <> None.
Proof using Type. apply for_await_total. lia. Qed.

(** Falsy values are skipped with a read each. *)
Lemma loop_skips (skipped : list Output) turns tr :
  Forall (fun value => truthy value = false) skipped ->
  loop (map Value skipped ++ turns) tr =
  loop turns (tr ++ repeat Read (length skipped)).
Proof using Type.
  intros H. revert tr. induction H as [|v vs Hv _ IH]; intros tr.
  - cbn. now rewrite app_nil_r.
  - cbn [map app XStream.loop length repeat]. rewrite Hv, IH.
    now rewrite <- app_assoc.
Qed.

(** A consumer that keeps pulling, with an output callback that does not
    throw, receives the truthy values in order; its loop ends as the
    request ends that meets what follows the values. *)
Lemma for_await_values (values : list Output) turns :
  returns_on (onSSEOutput options) ->
  forall fuel s tr,
    length values < fuel ->
    next s = loop (map Value values ++ turns) tr ->
    is_yield (loop turns (tr ++ body_of values)).1 = false ->
    for_await fuel s =
    (List.filter truthy values,
     Some (completion_of (loop turns (tr ++ body_of values)).1),
     (loop turns (tr ++ body_of values)).2).
Proof using Type.
  intros Hout. induction values as [|v vs IH]; intros fuel s tr Hfuel Hnext Hny.
  - destruct fuel as [|fuel]; [cbn in Hfuel; lia|].
    cbn [XStream.for_await]. rewrite Hnext. cbn [map app].
    cbn [XStream.body_of flat_map] in *. rewrite app_nil_r in *.
    destruct (loop turns tr) as [[value| | | |] s1]; cbn in *;
      try discriminate; reflexivity.
  - cbn [map app XStream.loop] in Hnext. cbn [List.filter].
    assert (Hbody : tr ++ body_of (v :: vs) =
                    ((tr ++ [Read])
                        ++ (if truthy v
                            then logged (registered (onSSEOutput options)) (CbOutput v)
                            else []))
                    ++ body_of vs).
    { unfold XStream.body_of. cbn [flat_map]. now rewrite <- !app_assoc. }
    rewrite Hbody in *.
    destruct (truthy v) eqn:Hv.
    + rewrite (call_returns_on _ v _ _ Hout) in Hnext.
      destruct fuel as [|fuel]; [cbn in Hfuel; lia|].
      cbn [XStream.for_await]. rewrite Hnext.
      rewrite (IH fuel _ ((tr ++ [Read])
                            ++ logged (registered (onSSEOutput options)) (CbOutput v)));
        [reflexivity | cbn in Hfuel; lia | reflexivity | exact Hny].
    + rewrite app_nil_r in *.
      apply IH; [cbn in Hfuel; lia | exact Hnext | exact Hny].
Qed.

Lemma yields_done (more : list request) :
  yields (map (fun _ => @Done Output Error) more) = [].
Proof using Type. induction more as [|q more IH]; [reflexivity | exact IH]. Qed.

(** *** The claims on the iterator *)



(** C6, as amended.  In every session the start callback comes before
    every output callback and every output callback before the complete
    callback; complete and abort are invoked at most once between them;
    the error callback is invoked at most once and is the last callback
    of the session; after a complete or abort callback only the error
    callback can follow, which is what happens when that callback
    throws.  When the complete and abort callbacks do not throw, the
    session has at most one terminal callback.  Once a terminal state is
    reached, further requests yield no value and invoke nothing. *)
Theorem lifecycle_order turns (requests : list request) :
  let s := (run requests (start turns)).2 in
  (forall t1 x t2,
      callbacks (trace s) = t1 ++ x :: t2 ->
      (is_output x = true ->
         (registered (onSSEStart options) = true -> In CbStart t1) /\
         Forall (fun y => is_start y = false) t2) /\
      (is_complete x = true -> Forall (fun y => is_output y = false) t2) /\
      (is_complete x || is_abort x = true ->
         Forall (fun y => is_complete y || is_abort y = false) (t1 ++ t2)) /\
      (is_error x = true ->
         t2 = [] /\ Forall (fun y => is_error y = false) t1) /\
      (is_terminal x = true -> Forall (fun y => is_error y = true) t2)) /\
  (returns (onSSEComplete options) -> returns (onSSEAbort options) ->
     count is_terminal (trace s) <= 1) /\
  (terminal (phase_of s) = true ->
     forall more, run more s = (map (fun _ => Done) more, s)).
Proof using Type.
  intros s.
  pose proof (reachable_invariant turns requests) as Hinv. fold s in Hinv.
  split; [|split].
  - intros t1 x t2 Hsplit.
    pose proof (invariant_sorted _ Hinv) as Hsorted.
    assert (Hcb : Forall (fun y : event => is_callback y = true) (t1 ++ x :: t2)).
    { rewrite <- Hsplit. apply Forall_forall. intros y Hy.
      apply list_elem_of_In, filter_In in Hy. apply Hy. }
    rewrite Hsplit in Hsorted. apply sorted_split in Hsorted as [H1 H2].
    apply Forall_app in Hcb as [Hc1 Hc2]. apply Forall_cons in Hc2 as [_ Hc2].
    assert (H1' : Forall (fun y => is_callback y = true /\ before y x) t1).
    { apply Forall_forall. intros y Hy. rewrite Forall_forall in Hc1, H1. auto. }
    assert (H2' : Forall (fun y => is_callback y = true /\ before x y) t2).
    { apply Forall_forall. intros y Hy. rewrite Forall_forall in Hc2, H2. auto. }
    split; [|split; [|split; [|split]]].
    + intros Hx. split.
      * intros Hreg.
        destruct (invariant_callbacks _ Hinv)
          as [Hnil | (outs & mids & errs & Hcbs & _)].
        -- rewrite Hnil in Hsplit. now destruct t1.
        -- rewrite Hcbs, Hreg in Hsplit. cbn in Hsplit.
           destruct t1 as [|y t1]; cbn in Hsplit; injection Hsplit as <- _.
           ++ discriminate.
           ++ now left.
      * apply rank_output in Hx. eapply Forall_impl; [exact H2|].
        intros y [Hy | [_ Hy]]; destruct y; cbn in *; congruence || lia.
    + intros Hx. eapply Forall_impl; [exact H2|].
      intros y [Hy | [Hy _]]; destruct x; try discriminate;
        destruct y; cbn in *; congruence || lia.
    + intros Hx. apply Forall_app. split.
      * eapply Forall_impl; [exact H1'|].
        intros y [Hy [Hb | [Hb _]]]; destruct x; try discriminate;
          destruct y; cbn in *; congruence || lia.
      * eapply Forall_impl; [exact H2'|].
        intros y [Hy [Hb | [Hb _]]]; destruct x; try discriminate;
          destruct y; cbn in *; congruence || lia.
    + intros Hx. split; [now apply (after_error x)|].
      eapply Forall_impl; [exact H1|].
      intros y [Hb | [_ Hb]]; destruct x; try discriminate;
        destruct y; cbn in *; congruence || lia.
    + intros Hx. eapply Forall_impl; [exact H2'|].
      intros y [Hy [Hb | [Hb _]]]; destruct x; try discriminate;
        destruct y; cbn in *; congruence || lia.
  - intros Hc Ha. now apply invariant_terminal.
  - intros Ht more. apply run_finished.
    destruct (phase_of s); cbn in *; congruence.
Qed.

(** C7, as amended.  When the signal is already aborted at the first
    turn of the loop, no value is yielded, nothing is read and the
    output callback is not invoked; the reader is acquired and released
    once and the iterator is finished.  When the start callback does not
    throw, the reader is cancelled exactly once; when moreover the
    cancellation resolves, the abort callback (when registered) is
    invoked exactly once, and when that callback does not throw the
    iterator ends in [Aborted], every request settles with [done] and a
    consumer's loop ends normally with no record.  When the cancellation
    rejects, the abort callback is not invoked and the rejection goes to
    the error callback.  When the start callback throws, the signal is
    not looked at: nothing is cancelled and the abort callback is not
    invoked. *)
Theorem abort_before_first_pull (rejection : option Error) rest
    (more : list request) :
  let session0 := start (SignalAborted rejection :: rest) in
  let results := (run (Next :: more) session0).1 in
  let s := (run (Next :: more) session0).2 in
  yields results = [] /\
  count is_read (trace s) = 0 /\
  count is_output (trace s) = 0 /\
  count is_get_reader (trace s) = 1 /\
  count is_release (trace s) = 1 /\
  locked s = false /\
  finished (phase_of s) = true /\
  (returns (onSSEStart options) ->
     count is_cancel (trace s) = 1 /\
     match rejection with
     | None =>
         count is_abort (trace s) =
           (if registered (onSSEAbort options) then 1 else 0) /\
         (returns (onSSEAbort options) ->
            phase_of s = Aborted /\
            trace s = opening ++ [Cancel]
                        ++ logged (registered (onSSEAbort options)) CbAbort
                        ++ [ReleaseLock] /\
            count is_error (trace s) = 0 /\
            results = Done :: map (fun _ => Done) more /\
            for_await_of session0 = ([], Some Finished, s))
     | Some error =>
         count is_abort (trace s) = 0 /\
         phase_of s = Errored error /\
         List.filter is_error (trace s) =
           logged (registered (onSSEError options)) (CbError error)
     end) /\
  (forall f error,
      onSSEStart options = Some f -> f [GetReader] = Throws error ->
      count is_cancel (trace s) = 0 /\
      count is_abort (trace s) = 0 /\
      phase_of s = Errored error).
Proof using Type.
  intros session0 results s.
  destruct (next session0) as [r s1] eqn:Hnext.
  assert (Hfin : finished (phase_of s1) = true /\ is_yield r = false).
  { revert Hnext. unfold XStream.next, session0, start.
    cbn [phase_of locked ahead trace app XStream.loop].
    unfold XStream.caught, call, applied.
    repeat match goal with
           | |- context [match ?o with Some _ => _ | None => _ end] =>
               destruct o
           | |- context [match ?f ?h with Returns => _ | Throws _ => _ end] =>
               destruct (f h)
           end; intros [= <- <-]; split; reflexivity. }
  destruct Hfin as [Hfin Hny].
  assert (Hrun : run (Next :: more) session0 =
                 (r :: map (fun _ => Done) more, s1))
    by now apply first_request.
  subst results s. rewrite Hrun. cbn [fst snd].
  assert (Hy : yields (r :: map (fun _ => Done) more) = []).
  { pose proof (yields_done more) as Hd.
    unfold yields in *. cbn [flat_map]. rewrite Hd.
    destruct r; try discriminate; reflexivity. }
  split; [exact Hy|]. clear Hy Hrun.
  unfold XStream.for_await_of. cbn [XStream.for_await]. rewrite Hnext.
  revert Hnext. unfold XStream.next, session0, start.
  cbn [phase_of locked ahead trace app XStream.loop].
  unfold XStream.caught, call, applied, returns, XStream.opening.
  destruct (onSSEStart options) as [fs|] eqn:Hs;
    [destruct (fs [GetReader]) as [|e0] eqn:Hfs|];
    destruct rejection as [error|];
    cbn [XStream.loop]; unfold XStream.caught, call, applied;
    repeat match goal with
           | |- context [onSSEAbort options] =>
               let H := fresh "Ha" in
               destruct (onSSEAbort options) eqn:H
           | |- context [onSSEError options] =>
               let H := fresh "He" in
               destruct (onSSEError options) eqn:H
           | |- context [match ?f ?h with Returns => _ | Throws _ => _ end] =>
               let H := fresh "Hf" in
               destruct (f h) eqn:H
           end;
    intros [= <- <-]; cbn;
    repeat match goal with
           | |- _ /\ _ => split
           | |- _ -> _ => intro
           | |- forall _, _ => intro
           end;
    try reflexivity;
    try congruence;
    repeat match goal with
           | H : forall f history, Some ?g = Some f -> _ |- _ =>
               pose proof (fun h => H g h eq_refl); clear H
           | H : forall h, ?g h = Returns, H' : ?g ?x = Throws _ |- _ =>
               rewrite (H x) in H'; discriminate
           end.
Qed.

End IteratorFacts.

(** *** Sessions on concrete streams *)





Lemma lifecycle_order_witness :
  let turns : list (@turn (list N) string) :=
    [Value (lit "a"); Value (lit "b"); Closed] in
  let s := (run truthy_string (complete_throws "boom"%string)
              [Next; Next; Next; Next] (start turns)).2 in
  let t1 : list (@event (list N) string) := [CbStart; CbOutput (lit "a")] in
  let x : @event (list N) string := CbOutput (lit "b") in
  let t2 : list (@event (list N) string) := [CbComplete; CbError "boom"%string] in
  (callbacks (trace s) = t1 ++ x :: t2 /\
   (registered (onSSEStart (@complete_throws (list N) string "boom"%string)) = true ->
    In CbStart t1) /\
   Forall (fun y => is_start y = false) t2) /\
  (let s' := (run truthy_string all_callbacks [Next; Next; Next; Next]
                (start turns)).2 in
   count is_terminal (trace s') <= 1 /\
   forall more,
     run truthy_string all_callbacks more s' = (map (fun _ => Done) more, s')).
Proof.
  intros turns s t1 x t2. split.
  - split; [reflexivity|].
    apply (proj1 (proj1 (lifecycle_order truthy_string
                           (complete_throws "boom"%string) turns
                           [Next; Next; Next; Next]) t1 x t2 eq_refl)).
    reflexivity.
  - intros s'. split.
    + apply (proj1 (proj2 (lifecycle_order truthy_string all_callbacks turns
                             [Next; Next; Next; Next]))).
      * intros f history [= <-]. reflexivity.
      * intros f history [= <-]. reflexivity.
    + apply (proj2 (proj2 (lifecycle_order truthy_string all_callbacks turns
                             [Next; Next; Next; Next]))).
      reflexivity.
Defined.

(** C6 as stated fails: a complete callback that throws.  The stream
    closes, the complete callback is invoked and throws, and what it
    threw is passed to the error callback: the session has two terminal
    callbacks, complete and error. *)
Lemma lifecycle_two_terminals_counterexample :
  let s : @session (list N) string :=
    (run truthy_string (complete_throws "boom"%string) [Next; Next]
       (start [Value (lit "a"); Closed])).2 in
  callbacks (trace s) =
    [CbStart; CbOutput (lit "a"); CbComplete; CbError "boom"%string] /\
  count is_error (trace s) = 1 /\
  count is_complete (trace s) = 1 /\
  count is_terminal (trace s) = 2.
Proof. repeat split; reflexivity. Qed.

Lemma abort_before_first_pull_witness :
  let session0 : @session (list N) string :=
    start [SignalAborted None; Value (lit "a"); Closed] in
  let s := (run truthy_string all_callbacks [Next; Next] session0).2 in
  count is_cancel (trace s) = 1 /\
  count is_abort (trace s) = 1 /\
  phase_of s = Aborted /\
  trace s = [GetReader; CbStart; Cancel; CbAbort; ReleaseLock] /\
  count is_error (trace s) = 0 /\
  (run truthy_string all_callbacks [Next; Next] session0).1 = [Done; Done] /\
  for_await_of truthy_string all_callbacks session0 = ([], Some Finished, s).
Proof.
  intros session0 s.
  pose proof (@abort_before_first_pull (list N) string truthy_string
                all_callbacks None
                [Value (lit "a"); Closed] [Next]) as H.
  destruct H as (_ & _ & _ & _ & _ & _ & _ & H & _).
  destruct (H ltac:(intros f history [= <-]; reflexivity)) as [Hc [Ha H']].
  destruct (H' ltac:(intros f history [= <-]; reflexivity))
    as (Hp & Htr & He & Hr & Hf).
  repeat split; assumption.
Defined.

(** C7 as stated fails: the signal is aborted before the first pull, but
    the cancellation of the reader rejects, as it does on a stream that
    has errored.  Nothing is yielded and the cancellation is issued, but
    the abort callback is not invoked; the rejection goes to the error
    callback.  And when the start callback throws, the signal is never
    looked at. *)
Lemma abort_callback_skipped_counterexample :
  (let session0 : @session (list N) string :=
     start [SignalAborted (Some "errored"%string)] in
   run truthy_string all_callbacks [Next] session0 =
   ([Done],
    {| phase_of := Errored "errored"%string; ahead := []; locked := false;
       trace := [GetReader; CbStart; Cancel; CbError "errored"%string;
                 ReleaseLock] |}) /\
   count is_abort
     (trace (run truthy_string all_callbacks [Next] session0).2) = 0) /\
  (let session0 : @session (list N) string := start [SignalAborted None] in
   run truthy_string (start_throws "boom"%string) [Next] session0 =
   ([Done],
    {| phase_of := Errored "boom"%string; ahead := [SignalAborted None];
       locked := false;
       trace := [GetReader; CbStart; CbError "boom"%string; ReleaseLock] |})).
Proof. repeat split; reflexivity. Qed.

(** * Further properties *)

(** ** [split] and [join] *)

Lemma join_cons_ne (sep p : list N) (rest : list (list N)) :
  rest <> [] -> join sep (p :: rest) = p ++ sep ++ join sep rest.
Proof. destruct rest; [congruence | reflexivity]. Qed.

Lemma join_split_nonempty (sep s : list N) :
  sep <> [] -> join sep (split sep s) = s.
Proof.
  intros Hsep. remember (length s) as n eqn:Hn. revert s Hn.
  induction n as [n IH] using lt_wf_ind. intros s ->.
  rewrite (split_eq sep Hsep). destruct (indexOf sep s) as [j|] eqn:E.
  - rewrite join_cons_ne by apply (split_not_nil sep Hsep).
    pose proof (indexOf_bound _ _ _ E). pose proof (sep_length sep Hsep).
    rewrite (IH (length (skipn (j + length sep) s)));
      [|rewrite length_drop; lia | reflexivity].
    symmetry. now apply indexOf_Some.
  - reflexivity.
Qed.

Lemma join_units (s : list N) : join [] (map (fun c => [c]) s) = s.
Proof.
  induction s as [|c s IH]; [reflexivity|].
  destruct s as [|d s]; [reflexivity|].
  cbn [map] in *. rewrite join_cons_ne by discriminate.
  cbn [app]. now rewrite IH.
Qed.

(** X1.  [split] loses nothing: joining the pieces of [s.split(sep)] with
    [sep] gives [s] back, for every separator, the empty one included. *)
Theorem join_split (sep s : list N) : join sep (split sep s) = s.
Proof.
  destruct sep as [|c sep'].
  - apply join_units.
  - apply join_split_nonempty. discriminate.
Qed.

(** Every piece of a split is a stretch of the text. *)
Lemma split_piece_inside (sep s p : list N) :
  In p (split sep s) -> exists a b, s = a ++ p ++ b.
Proof.
  destruct sep as [|c0 sep0] eqn:Esep.
  - cbn. intros H. apply in_map_iff in H as (c & <- & Hc).
    apply in_split in Hc as (a & b & ->). now exists a, b.
  - rewrite <- Esep. assert (Hsep : sep <> []) by (subst; discriminate).
    clear Esep. remember (length s) as n eqn:Hn. revert s Hn p.
    induction n as [n IH] using lt_wf_ind. intros s -> p.
    rewrite (split_eq sep Hsep). destruct (indexOf sep s) as [j|] eqn:E.
    + pose proof (indexOf_Some _ _ _ E) as Hs.
      intros [<- | Hin].
      * exists [], (sep ++ skipn (j + length sep) s). exact Hs.
      * pose proof (indexOf_bound _ _ _ E). pose proof (sep_length sep Hsep).
        destruct (IH (length (skipn (j + length sep) s))
                    ltac:(rewrite length_drop; lia) _ eq_refl p Hin)
          as (a & b & Hab).
        exists (firstn j s ++ sep ++ a), b.
        rewrite Hs at 1. rewrite Hab at 1. now rewrite <- !app_assoc.
    + intros [<- | []]. exists [], []. now rewrite app_nil_r.
Qed.

Lemma all_ws_inside (a p b : list N) :
  all_ws (a ++ p ++ b) = true -> all_ws p = true.
Proof.
  unfold all_ws. rewrite !forallb_app, !andb_true_iff. tauto.
Qed.

(** The last piece is the text after the last occurrence. *)
Lemma split_last (sep s b : list N) :
  sep <> [] ->
  last (split sep s) = Some b ->
  (~ contains sep s /\ b = s) \/ exists pre, s = pre ++ sep ++ b.
Proof.
  intros Hsep. remember (length s) as n eqn:Hn. revert s Hn.
  induction n as [n IH] using lt_wf_ind. intros s ->.
  rewrite (split_eq sep Hsep). destruct (indexOf sep s) as [j|] eqn:E.
  - rewrite last_cons_ne by apply (split_not_nil sep Hsep).
    intros Hlast. right.
    pose proof (indexOf_Some _ _ _ E) as Hs.
    pose proof (indexOf_bound _ _ _ E). pose proof (sep_length sep Hsep).
    destruct (IH (length (skipn (j + length sep) s))
                ltac:(rewrite length_drop; lia) _ eq_refl Hlast)
      as [[_ ->] | (pre & Hpre)].
    + now exists (firstn j s).
    + exists (firstn j s ++ sep ++ pre).
      rewrite Hs at 1. rewrite Hpre at 1. now rewrite <- !app_assoc.
  - intros [= <-]. left. split; [now apply indexOf_None | reflexivity].
Qed.

(** ** The splitter, continued *)

Lemma feed_splitStream_nonblank (sep : list N) (chunks : list (list N))
    (buffer : option (list N)) :
  Forall (fun part => nonblank part = true)
    (feed (splitStream sep) buffer chunks).2.
Proof.
  revert buffer; induction chunks as [|chunk rest IH]; intros buffer.
  - constructor.
  - cbn [feed splitStream ts_transform]. unfold SplitStream.transform.
    fold (splitStream sep).
    specialize (IH (last (split sep (SplitStream.append buffer chunk)))).
    cbn [splitStream ts_state] in IH |- *.
    destruct (feed (splitStream sep) _ rest) as [st out]. cbn [snd] in *.
    apply Forall_app. split; [|exact IH].
    apply Forall_forall. intros part Hin.
    apply list_elem_of_In, List.filter_In in Hin. apply Hin.
Qed.

(** X2.  Whatever the separator and the chunks, the splitter never emits
    an empty or white-space-only part, neither mid-stream nor at the end. *)
Theorem splitStream_never_blank (sep : list N) (chunks : list (list N)) :
  Forall (fun part => part <> [] /\ all_ws part = false)
    (pipeThrough (splitStream sep) chunks).
Proof.
  assert (H : Forall (fun part => nonblank part = true)
                (pipeThrough (splitStream sep) chunks)).
  { unfold pipeThrough. cbn [splitStream ts_start]. fold (splitStream sep).
    pose proof (feed_splitStream_nonblank sep chunks (Some [])) as Hfeed.
    cbn [splitStream ts_state] in Hfeed |- *.
    destruct (feed (splitStream sep) (Some []) chunks) as [buffer out].
    cbn [snd] in Hfeed. apply Forall_app. split; [exact Hfeed|].
    change (Forall (fun part : list N => nonblank part = true)
              (SplitStream.flush buffer)).
    unfold SplitStream.flush.
    destruct buffer as [b|]; [|constructor].
    destruct (nonblank b) eqn:Hb; repeat constructor. exact Hb. }
  eapply Forall_impl; [exact H|]. intros part Hp. cbn beta in Hp |- *.
  rewrite nonblank_all_ws in Hp. apply negb_true_iff in Hp.
  split; [|exact Hp]. intros ->. discriminate.
Qed.

(** X3.  For a non-empty separator the emitted parts are described
    without reference to chunks or buffers: the text is cut into pieces
    that hold no separator and that, joined by the separator, give the
    text back; the parts are the pieces that are not blank, in order. *)
Theorem splitStream_pieces (sep : list N) (chunks : list (list N)) :
  sep <> [] ->
  exists pieces,
    join sep pieces = concat chunks /\
    Forall (fun p => ~ contains sep p) pieces /\
    pipeThrough (splitStream sep) chunks = List.filter nonblank pieces.
Proof.
  intros Hsep. exists (split sep (concat chunks)). split; [|split].
  - now apply join_split_nonempty.
  - apply Forall_forall. intros p Hp. apply list_elem_of_In in Hp.
    now apply (split_pieces_clean sep Hsep (concat chunks)).
  - now apply pipeThrough_splitStream.
Qed.

Lemma splitStream_pieces_witness :
  exists pieces,
    join (LF ++ LF) pieces = concat [lit "a" ++ LF; LF ++ lit "b"] /\
    Forall (fun p => ~ contains (LF ++ LF) p) pieces /\
    pipeThrough (splitStream (LF ++ LF)) [lit "a" ++ LF; LF ++ lit "b"] =
    List.filter nonblank pieces.
Proof.
  apply (splitStream_pieces (LF ++ LF) [lit "a" ++ LF; LF ++ lit "b"]).
  discriminate.
Defined.

(** X4.  Input that is empty or holds only white space yields no part,
    however it is chunked. *)
Theorem splitStream_blank_input (sep : list N) (chunks : list (list N)) :
  sep <> [] ->
  all_ws (concat chunks) = true ->
  pipeThrough (splitStream sep) chunks = [].
Proof.
  intros Hsep Hws. rewrite (pipeThrough_splitStream sep Hsep).
  assert (Hall : Forall (fun q => nonblank q = false) (split sep (concat chunks))).
  { apply Forall_forall. intros q Hq. apply list_elem_of_In in Hq.
    apply split_piece_inside in Hq as (a & b & Hab).
    rewrite Hab in Hws. apply all_ws_inside in Hws.
    now rewrite nonblank_all_ws, Hws. }
  induction Hall as [|q rest Hq _ IH]; [reflexivity|].
  cbn [List.filter]. now rewrite Hq.
Qed.

Lemma splitStream_blank_input_witness :
  pipeThrough (splitStream (LF ++ LF)) [lit " " ++ LF; LF ++ LF ++ lit "  "] = [].
Proof.
  apply splitStream_blank_input; [discriminate | reflexivity].
Defined.

(** X5.  For a non-empty separator the retained buffer is always defined
    and is the text received after the last occurrence of the separator: it
    holds no separator, and either the whole text holds none, nothing has
    been emitted and the buffer is the text, or the text ends with the
    separator followed by the buffer. *)
Theorem splitStream_buffer (sep : list N) (chunks : list (list N)) :
  sep <> [] ->
  exists buffer,
    (feed (splitStream sep) (Some []) chunks).1 = Some buffer /\
    ~ contains sep buffer /\
    ((~ contains sep (concat chunks) /\ buffer = concat chunks /\
      (feed (splitStream sep) (Some []) chunks).2 = []) \/
     exists before, concat chunks = before ++ sep ++ buffer).
Proof.
  intros Hsep.
  assert (Hclean : ~ contains sep []).
  { intros (a & b & H). destruct a, sep; try discriminate; congruence. }
  pose proof (feed_splitStream sep Hsep [] chunks Hclean) as Hfeed.
  cbn [app] in Hfeed. rewrite Hfeed. cbn [fst snd].
  destruct (last (split sep (concat chunks))) as [buffer|] eqn:Hlast;
    [|apply last_None in Hlast; now apply (split_not_nil sep Hsep) in Hlast].
  exists buffer. split; [reflexivity|]. split.
  - apply (split_pieces_clean sep Hsep (concat chunks)).
    apply list_elem_of_In. now apply last_Some_elem_of.
  - destruct (split_last sep _ _ Hsep Hlast) as [[Hno ->] | Hpre].
    + left. split; [exact Hno|]. split; [reflexivity|].
      now rewrite (split_without sep Hsep _ Hno).
    + now right.
Qed.

Lemma splitStream_buffer_witness :
  exists buffer,
    (feed (splitStream (LF ++ LF)) (Some [])
       [lit "a" ++ LF; LF ++ lit "b"]).1 = Some buffer /\
    ~ contains (LF ++ LF) buffer /\
    ((~ contains (LF ++ LF) (concat [lit "a" ++ LF; LF ++ lit "b"]) /\
      buffer = concat [lit "a" ++ LF; LF ++ lit "b"] /\
      (feed (splitStream (LF ++ LF)) (Some [])
         [lit "a" ++ LF; LF ++ lit "b"]).2 = []) \/
     exists before,
       concat [lit "a" ++ LF; LF ++ lit "b"] = before ++ (LF ++ LF) ++ buffer).
Proof.
  apply (splitStream_buffer (LF ++ LF) [lit "a" ++ LF; LF ++ lit "b"]).
  discriminate.
Defined.

(** *** The empty separator *)

Lemma last_nonempty_default (z d d' : N) (l : list N) :
  List.last (z :: l) d = List.last (z :: l) d'.
Proof.
  revert z; induction l as [|y l IH]; intros z; [reflexivity|].
  change (List.last (y :: l) d = List.last (y :: l) d'). apply IH.
Qed.

Lemma last_cons_default (y x : N) (l : list N) :
  List.last (y :: l) x = List.last l y.
Proof.
  destruct l as [|z l]; [reflexivity|].
  change (List.last (z :: l) x = List.last (z :: l) y).
  apply last_nonempty_default.
Qed.

Lemma last_units (x : N) (l : list N) :
  last (map (fun u => [u]) (x :: l)) = Some [List.last l x].
Proof.
  revert x; induction l as [|y l IH]; intros x; [reflexivity|].
  cbn [map]. rewrite last_cons_cons, (last_cons_default y x l).
  apply (IH y).
Qed.

Lemma removelast_units (l : list N) :
  removelast (map (fun u => [u]) l) = map (fun u => [u]) (removelast l).
Proof.
  induction l as [|x l IH]; [reflexivity|].
  destruct l as [|y l]; [reflexivity|].
  cbn [map removelast] in *. now rewrite IH.
Qed.

Lemma last_default_app (x : N) (l r : list N) :
  List.last (l ++ r) x = List.last r (List.last l x).
Proof.
  revert x; induction l as [|y l IH]; intros x; [reflexivity|].
  rewrite <- app_comm_cons, !last_cons_default. apply IH.
Qed.

Lemma removelast_cons_app (x : N) (l r : list N) :
  removelast (x :: l ++ r) =
  removelast (x :: l) ++ removelast (List.last l x :: r).
Proof.
  revert x; induction l as [|y l IH]; intros x; [reflexivity|].
  change (removelast (x :: (y :: l) ++ r)) with (x :: removelast (y :: l ++ r)).
  change (removelast (x :: y :: l)) with (x :: removelast (y :: l)).
  rewrite (IH y), last_cons_default. reflexivity.
Qed.

Lemma feed_units (chunks : list (list N)) (x : N) :
  feed (splitStream []) (Some [x]) chunks =
  (Some [List.last (concat chunks) x],
   List.filter nonblank
     (map (fun u => [u]) (removelast (x :: concat chunks)))).
Proof.
  revert x; induction chunks as [|chunk rest IH]; intros x; [reflexivity|].
  cbn [feed splitStream ts_transform]. unfold SplitStream.transform.
  cbn [SplitStream.append split app].
  rewrite last_units, removelast_units. fold (splitStream []).
  specialize (IH (List.last chunk x)). cbn [splitStream ts_state] in IH |- *.
  rewrite IH. cbn [concat]. f_equal.
  - now rewrite last_default_app.
  - rewrite removelast_cons_app, map_app, List.filter_app. reflexivity.
Qed.

(** X6.  With the empty separator and a first chunk that is not empty,
    every code unit of the text that is not white space is emitted as a
    part of its own, in order. *)
Theorem splitStream_empty_separator (c : N) (chunk : list N)
    (rest : list (list N)) :
  pipeThrough (splitStream []) ((c :: chunk) :: rest) =
  List.filter nonblank (map (fun u => [u]) (concat ((c :: chunk) :: rest))).
Proof.
  unfold pipeThrough.
  change (feed (splitStream []) (ts_start (splitStream [])) ((c :: chunk) :: rest))
    with (feed (splitStream []) (Some [c]) (chunk :: rest)).
  rewrite feed_units.
  change (ts_flush (splitStream []) (Some [List.last (concat (chunk :: rest)) c]))
    with (SplitStream.flush (Some [List.last (concat (chunk :: rest)) c])).
  change (concat ((c :: chunk) :: rest)) with (c :: concat (chunk :: rest)).
  rewrite (app_removelast_last (l := c :: concat (chunk :: rest)) c) at 2
    by discriminate.
  rewrite map_app, List.filter_app. f_equal.
  change (List.last (c :: concat (chunk :: rest)) c)
    with (List.last (concat (chunk :: rest)) c) || idtac.
  unfold SplitStream.flush. cbn [map List.filter].
  assert (E : List.last (c :: concat (chunk :: rest)) c
              = List.last (concat (chunk :: rest)) c).
  { destruct (concat (chunk :: rest)); reflexivity. }
  rewrite E. destruct (nonblank _); reflexivity.
Qed.

(** X7.  With the empty separator an empty first chunk makes
    [parts[parts.length - 1]] undefined, and [buffer += chunk] then turns
    it into text: the stream behaves as if the next chunk began with
    "undefined". *)
Theorem splitStream_undefined_buffer (chunk : list N) (rest : list (list N)) :
  pipeThrough (splitStream []) ([] :: chunk :: rest) =
  pipeThrough (splitStream []) ((lit "undefined" ++ chunk) :: rest).
Proof.
  assert (H1 : forall l,
            feed (splitStream []) (Some []) ([] :: l) =
            feed (splitStream []) None l).
  { intros l. cbn [feed].
    change (ts_transform (splitStream []) (Some []) []) with (@None (list N), @nil (list N)).
    cbv beta iota.
    match goal with
    | |- (let '(_, _) := ?f in _) = ?g => change g with f; destruct f
    end.
    reflexivity. }
  assert (H2 : feed (splitStream []) None (chunk :: rest) =
               feed (splitStream []) (Some []) ((lit "undefined" ++ chunk) :: rest)).
  { cbn [feed].
    change (ts_transform (splitStream []) None chunk)
      with (ts_transform (splitStream []) (Some []) (lit "undefined" ++ chunk)).
    reflexivity. }
  unfold pipeThrough.
  change (ts_start (splitStream [])) with (Some (@nil N)).
  now rewrite H1, H2.
Qed.

(** ** [trim] *)

Lemma trimStart_suffix (s : list N) : exists w, s = w ++ trimStart s.
Proof.
  induction s as [|c s [w IH]]; [now exists []|].
  cbn. destruct (is_ws c).
  - exists (c :: w). cbn. now f_equal.
  - now exists [].
Qed.

Lemma trimStart_head (s : list N) (c : N) (rest : list N) :
  trimStart s = c :: rest -> is_ws c = false.
Proof.
  induction s as [|d s IH]; cbn; [discriminate|].
  destruct (is_ws d) eqn:E; [exact IH|]. now intros [= <- _].
Qed.

Lemma trimStart_fixed (s : list N) :
  match s with [] => True | c :: _ => is_ws c = false end -> trimStart s = s.
Proof. destruct s as [|c s]; cbn; [reflexivity|]. now intros ->. Qed.

(** A trimmed string starts and ends with code units that are not white
    space, so that trimming it again changes nothing. *)
Lemma trim_idempotent (s : list N) : trim (trim s) = trim s.
Proof.
  unfold trim, trimEnd.
  set (t := trimStart s). set (u := rev (trimStart (rev t))).
  assert (Hu : trimStart u = u).
  { apply trimStart_fixed. destruct u as [|c u'] eqn:Eu; [exact I|].
    destruct (trimStart_suffix (rev t)) as [w Hw].
    apply (f_equal (@rev N)) in Hw. rewrite rev_involutive, rev_app_distr in Hw.
    fold u in Hw. rewrite Eu in Hw. cbn in Hw.
    apply (trimStart_head s c (u' ++ rev w)). exact Hw. }
  rewrite Hu. subst u. rewrite rev_involutive.
  assert (Hr : trimStart (trimStart (rev t)) = trimStart (rev t)).
  { apply trimStart_fixed. destruct (trimStart (rev t)) as [|c r] eqn:E; [exact I|].
    now apply trimStart_head in E. }
  now rewrite Hr.
Qed.

(** ** The parser, continued *)

Lemma step_field (kv : list N) (acc : gmap (list N) (list N)) (line : list N) :
  SplitPart.step kv acc line =
  match field_of_line kv line with
  | Some (key, value) => <[key := value]> acc
  | None => acc
  end.
Proof.
  unfold SplitPart.step, field_of_line.
  destruct (indexOf kv line); [|reflexivity].
  now destruct (is_empty (trim (firstn n line))).
Qed.

(** The values that the lines give to one key, in order. *)
Lemma fold_step_lookup (kv key : list N) (lines : list (list N)) :
  fold_left (SplitPart.step kv) lines ∅ !! key =
  last (omap (fun line =>
                match field_of_line kv line with
                | Some (k, v) => if decide (k = key) then Some v else None
                | None => None
                end) lines).
Proof.
  induction lines as [|line lines IH] using rev_ind; [reflexivity|].
  rewrite fold_left_app, omap_app. cbn [fold_left omap].
  rewrite step_field. unfold list_omap at 2.
  destruct (field_of_line kv line) as [[k v]|].
  - destruct (decide (k = key)) as [->|Hne].
    + now rewrite lookup_insert_eq, last_snoc.
    + rewrite lookup_insert_ne by exact Hne. now rewrite app_nil_r.
  - now rewrite app_nil_r.
Qed.

(** X8.  Later pairs overwrite earlier ones: in the record of a part, the
    value of a key is the value given by the last line of the part that
    has this key, and a key that no line has is absent. *)
Theorem record_last_wins (separator kvSeparator partChunk key : list N) :
  SplitPart.record separator kvSeparator partChunk !! key =
  last (omap (fun line =>
                match field_of_line kvSeparator line with
                | Some (k, v) => if decide (k = key) then Some v else None
                | None => None
                end) (split separator partChunk)).
Proof. apply fold_step_lookup. Qed.

Lemma field_of_line_Some (kv line key value : list N) :
  field_of_line kv line = Some (key, value) ->
  nonblank key = true /\ trim value = value /\ ~ contains kv key /\
  exists rest, line = key ++ rest.
Proof.
  unfold field_of_line. destruct (indexOf kv line) as [j|] eqn:E; [|discriminate].
  destruct (is_empty (trim (firstn j line))) eqn:Hk; [discriminate|].
  intros [= <- <-]. split; [|split; [|split]].
  - unfold nonblank. now rewrite Hk.
  - apply trim_idempotent.
  - destruct kv as [|c kv'] eqn:Ekv.
    + destruct line; cbn in E; injection E as <-; discriminate.
    + apply before_first_clean; [discriminate | exact E].
  - exists (skipn j line). now rewrite take_drop.
Qed.

(** Where the name and the value of a field lie in its line. *)
Lemma field_of_line_position (kv line key value : list N) :
  field_of_line kv line = Some (key, value) ->
  indexOf kv line = Some (length key) /\
  key = firstn (length key) line /\
  value = trim (skipn (length key + 1) line) /\
  line = key ++ kv ++ skipn (length key + length kv) line.
Proof.
  unfold field_of_line. destruct (indexOf kv line) as [j|] eqn:E; [|discriminate].
  destruct (is_empty (trim (firstn j line))) eqn:Hk; [discriminate|].
  pose proof (indexOf_bound _ _ _ E) as Hb.
  assert (Hlen : length (firstn j line) = j) by (rewrite length_firstn; lia).
  intros [= <- <-]. rewrite Hlen.
  split; [reflexivity|]. split; [reflexivity|]. split; [reflexivity|].
  now apply indexOf_Some.
Qed.

Lemma record_field_origin (separator kv partChunk key value : list N) :
  SplitPart.record separator kv partChunk !! key = Some value ->
  exists line,
    In line (split separator partChunk) /\
    field_of_line kv line = Some (key, value).
Proof.
  unfold SplitPart.record. rewrite fold_step_lookup. intros H.
  apply last_Some_elem_of, list_elem_of_In in H.
  induction (split separator partChunk) as [|line lines IH]; [destruct H|].
  cbn [omap list_omap] in H.
  destruct (field_of_line kv line) as [[k v]|] eqn:E.
  - destruct (decide (k = key)) as [->|Hne].
    + destruct H as [<- | H].
      * exists line. split; [now left | exact E].
      * destruct (IH H) as (l & Hl & Hf). exists l. split; [now right | exact Hf].
    + destruct (IH H) as (l & Hl & Hf). exists l. split; [now right | exact Hf].
  - destruct (IH H) as (l & Hl & Hf). exists l. split; [now right | exact Hf].
Qed.

(** X9.  Every field of a record comes from a line of the part.  The
    first occurrence of the key-value delimiter in that line is at the
    length of the name: the name is the text of the line before it, the
    delimiter follows, and the value is the text of the line from one
    code unit after that position, trimmed.  The name is not blank and
    holds no delimiter; the value has no white space left at either end. *)
Theorem record_fields_wellformed
    (separator kvSeparator partChunk key value : list N) :
  SplitPart.record separator kvSeparator partChunk !! key = Some value ->
  nonblank key = true /\
  ~ contains kvSeparator key /\
  trim value = value /\
  exists line,
    In line (split separator partChunk) /\
    indexOf kvSeparator line = Some (length key) /\
    key = firstn (length key) line /\
    value = trim (skipn (length key + 1) line) /\
    line = key ++ kvSeparator ++ skipn (length key + length kvSeparator) line.
Proof.
  intros H. apply record_field_origin in H as (line & Hin & Hf).
  pose proof (field_of_line_position _ _ _ _ Hf) as Hpos.
  apply field_of_line_Some in Hf as (Hk & Hv & Hc & _).
  split; [exact Hk|]. split; [exact Hc|]. split; [exact Hv|].
  exists line. split; [exact Hin | exact Hpos].
Qed.

Lemma record_fields_wellformed_witness :
  nonblank (lit "data") = true /\
  ~ contains (lit ":") (lit "data") /\
  trim (lit "Hello World") = lit "Hello World" /\
  exists line,
    In line (split LF (lit "data: Hello World" ++ LF ++ lit "id: 1")) /\
    indexOf (lit ":") line = Some (length (lit "data")) /\
    lit "data" = firstn (length (lit "data")) line /\
    lit "Hello World" = trim (skipn (length (lit "data") + 1) line) /\
    line = lit "data" ++ lit ":"
             ++ skipn (length (lit "data") + length (lit ":")) line.
Proof.
  apply (record_fields_wellformed LF (lit ":")
           (lit "data: Hello World" ++ LF ++ lit "id: 1")
           (lit "data") (lit "Hello World")).
  vm_compute. reflexivity.
Defined.

Lemma fold_no_fields (kv : list N) (lines : list (list N))
    (acc : gmap (list N) (list N)) :
  Forall (fun line => field_of_line kv line = None) lines ->
  fold_left (SplitPart.step kv) lines acc = acc.
Proof.
  intros H. revert acc. induction H as [|line lines Hl _ IH]; intros acc;
    [reflexivity|].
  cbn [fold_left]. rewrite step_field, Hl. apply IH.
Qed.

Lemma has_fields_lookup (r : gmap (list N) (list N)) :
  SplitPart.has_fields r = true <-> exists key value, r !! key = Some value.
Proof.
  unfold SplitPart.has_fields. rewrite bool_decide_eq_true. split.
  - intros H. destruct (map_choose r) as (k & v & Hkv); [|eauto].
    intros ->. rewrite map_size_empty in H. lia.
  - intros (k & v & Hkv).
    destruct (decide (size r = 0)) as [Hz|]; [|lia].
    apply map_size_empty_iff in Hz. subst. rewrite lookup_empty in Hkv.
    discriminate.
Qed.

(** X10.  A part emits a record exactly when one of its lines gives a
    field; the record is then the only thing emitted for the part. *)
Theorem splitPart_emits_iff (separator kvSeparator partChunk : list N) :
  (SplitPart.transform separator kvSeparator partChunk =
     [SplitPart.record separator kvSeparator partChunk] /\
   exists line,
     In line (split separator partChunk) /\
     field_of_line kvSeparator line <> None) \/
  (SplitPart.transform separator kvSeparator partChunk = [] /\
   forall line,
     In line (split separator partChunk) ->
     field_of_line kvSeparator line = None).
Proof.
  unfold SplitPart.transform.
  destruct (SplitPart.has_fields (SplitPart.record separator kvSeparator partChunk))
    eqn:Hf.
  - left. split; [reflexivity|].
    apply has_fields_lookup in Hf as (key & value & Hkv).
    apply record_field_origin in Hkv as (line & Hin & Hl).
    exists line. split; [exact Hin | congruence].
  - right. split; [reflexivity|]. intros line Hin.
    destruct (field_of_line kvSeparator line) as [[k v]|] eqn:El; [|reflexivity].
    exfalso. assert (Ht : SplitPart.has_fields
                            (SplitPart.record separator kvSeparator partChunk) = true);
      [|congruence].
    apply has_fields_lookup.
    assert (Hne : is_Some (SplitPart.record separator kvSeparator partChunk !! k)).
    { unfold SplitPart.record. rewrite fold_step_lookup. apply last_is_Some.
      intros Hnil.
      assert (Hv : v ∈ omap (fun line0 =>
                match field_of_line kvSeparator line0 with
                | Some (k0, v0) => if decide (k0 = k) then Some v0 else None
                | None => None
                end) (split separator partChunk)).
      { apply list_elem_of_omap. exists line. split; [now apply list_elem_of_In|].
        rewrite El. now rewrite decide_True. }
      rewrite Hnil in Hv. now apply elem_of_nil in Hv. }
    destruct Hne as [value Hvalue]. eauto.
Qed.

Lemma transform_no_fields (separator kv partChunk : list N) :
  (forall line, In line (split separator partChunk) ->
                field_of_line kv line = None) ->
  SplitPart.transform separator kv partChunk = [].
Proof.
  intros H. unfold SplitPart.transform, SplitPart.record.
  rewrite fold_no_fields; [reflexivity|].
  apply Forall_forall. intros line Hin. apply H. now apply list_elem_of_In.
Qed.

Lemma contains_inside (kv a p b : list N) :
  contains kv p -> contains kv (a ++ p ++ b).
Proof.
  intros (x & y & ->). exists (a ++ x), (y ++ b). now rewrite <- !app_assoc.
Qed.

(** X11.  Malformed parts are dropped without error: a part that is empty
    or all white space, a part in which the key-value delimiter does not
    occur, and every part when the key-value delimiter is the empty
    string, emit nothing. *)
Theorem splitPart_emits_nothing (separator kvSeparator partChunk : list N) :
  all_ws partChunk = true \/ ~ contains kvSeparator partChunk \/ kvSeparator = [] ->
  SplitPart.transform separator kvSeparator partChunk = [].
Proof.
  intros H. apply transform_no_fields. intros line Hin.
  apply split_piece_inside in Hin as (a & b & Hab).
  unfold field_of_line.
  destruct (indexOf kvSeparator line) as [j|] eqn:E; [|reflexivity].
  destruct H as [Hws | [Hno | ->]].
  - rewrite Hab in Hws. apply all_ws_inside in Hws.
    rewrite <- (take_drop j line) in Hws.
    assert (Hk : all_ws (firstn j line) = true).
    { apply (all_ws_inside [] (firstn j line) (skipn j line)). exact Hws. }
    apply trim_nil_iff in Hk. now rewrite Hk.
  - exfalso. apply Hno. rewrite Hab. apply contains_inside.
    destruct (indexOf_None kvSeparator line) as [_ Hback].
    destruct (indexOf kvSeparator line) eqn:E'; [|discriminate].
    apply indexOf_Some in E'. eexists _, _. exact E'.
  - assert (j = 0) as -> by (destruct line; cbn in E; congruence).
    reflexivity.
Qed.

Lemma splitPart_emits_nothing_witness :
  SplitPart.transform LF (lit ":") (lit "invalid line") = [].
Proof.
  apply splitPart_emits_nothing. right. left.
  apply indexOf_None. reflexivity.
Defined.

(** X12.  The parser keeps no state between parts: the records of a
    sequence of parts are the records of its first stretch followed by
    those of the rest; each part gives at most one record, and no emitted
    record is empty. *)
Theorem splitPart_stateless (separator kvSeparator : list N)
    (parts1 parts2 : list (list N)) :
  pipeThrough (splitPart separator kvSeparator) (parts1 ++ parts2) =
  pipeThrough (splitPart separator kvSeparator) parts1 ++
  pipeThrough (splitPart separator kvSeparator) parts2 /\
  length (pipeThrough (splitPart separator kvSeparator) parts1) <= length parts1 /\
  Forall (fun r : gmap (list N) (list N) => r <> ∅)
    (pipeThrough (splitPart separator kvSeparator) parts1).
Proof.
  rewrite !pipeThrough_splitPart. split; [|split].
  - now rewrite map_app, List.filter_app.
  - etransitivity; [apply List.filter_length_le|]. now rewrite length_map.
  - apply Forall_forall. intros r Hr.
    apply list_elem_of_In, List.filter_In in Hr as [_ Hr].
    intros ->. discriminate.
Qed.

(** ** The default pipeline, continued *)

Section PipelineMore.

Variable decoderStream : TransformStream (list Byte.byte) (list N).

(** X13.  The records depend on the decoded text only, not on how the
    transport or the decoder cut it into chunks: two inputs with the same
    decoded text give the same records. *)
Theorem defaultPipeline_text_only
    (STREAM_SEPARATOR PART_SEPARATOR KV_SEPARATOR : list N)
    (input1 input2 : list (list Byte.byte)) :
  STREAM_SEPARATOR <> [] ->
  decoded_text decoderStream input1 = decoded_text decoderStream input2 ->
  defaultPipeline decoderStream STREAM_SEPARATOR PART_SEPARATOR KV_SEPARATOR input1 =
  defaultPipeline decoderStream STREAM_SEPARATOR PART_SEPARATOR KV_SEPARATOR input2.
Proof using Type.
  intros Hsep Htext. unfold defaultPipeline.
  rewrite !pipeThrough_splitPart, !(pipeThrough_splitStream _ Hsep).
  fold (decoded_text decoderStream input1) (decoded_text decoderStream input2).
  now rewrite Htext.
Qed.

(** X14.  An input whose decoded text is empty or all white space gives
    no record. *)
Theorem defaultPipeline_blank_input
    (STREAM_SEPARATOR PART_SEPARATOR KV_SEPARATOR : list N)
    (input : list (list Byte.byte)) :
  STREAM_SEPARATOR <> [] ->
  all_ws (decoded_text decoderStream input) = true ->
  defaultPipeline decoderStream STREAM_SEPARATOR PART_SEPARATOR KV_SEPARATOR input = [].
Proof using Type.
  intros Hsep Hws. unfold defaultPipeline.
  rewrite pipeThrough_splitPart, (pipeThrough_splitStream _ Hsep).
  fold (decoded_text decoderStream input).
  assert (Hall : Forall (fun q => nonblank q = false)
                   (split STREAM_SEPARATOR (decoded_text decoderStream input))).
  { apply Forall_forall. intros q Hq. apply list_elem_of_In in Hq.
    apply split_piece_inside in Hq as (a & b & Hab).
    rewrite Hab in Hws. apply all_ws_inside in Hws.
    now rewrite nonblank_all_ws, Hws. }
  induction Hall as [|q rest Hq _ IH]; [reflexivity|].
  cbn [List.filter]. now rewrite Hq.
Qed.

End PipelineMore.

Lemma defaultPipeline_text_only_witness :
  defaultPipeline asciiDecoderStream (LF ++ LF) LF (lit ":")
    [bytes "data: a"; [Byte.x0a; Byte.x0a]] =
  defaultPipeline asciiDecoderStream (LF ++ LF) LF (lit ":")
    [bytes "da"; bytes "ta: a" ++ [Byte.x0a]; [Byte.x0a]].
Proof.
  apply defaultPipeline_text_only; [discriminate | reflexivity].
Defined.

Lemma defaultPipeline_blank_input_witness :
  defaultPipeline asciiDecoderStream (LF ++ LF) LF (lit ":")
    [bytes "  "; [Byte.x0a; Byte.x0a]; bytes " "] = [].
Proof.
  apply defaultPipeline_blank_input; [discriminate | reflexivity].
Defined.


(** ** The async iterator, continued *)

Section IteratorMore.

Context {Output Error : Type}.
Variable truthy : Output -> bool.
Variable options : @XStreamOptions Output Error.

Local Abbreviation event := (@event Output Error).
Local Abbreviation turn := (@turn Output Error).
Local Abbreviation session := (@session Output Error).
Local Abbreviation iter_result := (@iter_result Output Error).
Local Abbreviation caught := (caught options).
Local Abbreviation loop := (loop truthy options).
Local Abbreviation next := (next truthy options).
Local Abbreviation run := (run truthy options).
Local Abbreviation resume := (resume truthy options).
Local Abbreviation for_await := (for_await truthy options).
Local Abbreviation for_await_of := (for_await_of truthy options).
Local Abbreviation opening := (@opening Output Error options).
Local Abbreviation closing := (@closing Output Error options).
Local Abbreviation body_of := (@body_of Output Error truthy options).
Local Abbreviation invariant := (@invariant Output Error options).
Local Abbreviation outputs := (@outputs Output Error).
Local Abbreviation yields := (@yields Output Error).
Local Abbreviation values_of := (@values_of Output Error).
Local Abbreviation accounted := (accounted truthy options).

Implicit Types (s : session) (tr body : list event) (turns : list turn).

Lemma outputs_app tr1 tr2 : outputs (tr1 ++ tr2) = outputs tr1 ++ outputs tr2.
Proof using Type. apply flat_map_app. Qed.

Lemma yields_cons (r : iter_result) (results : list iter_result) :
  yields (r :: results) = yields [r] ++ yields results.
Proof using Type. unfold XStream.yields. cbn. now rewrite app_nil_r. Qed.

Lemma values_of_app turns1 turns2 :
  values_of (turns1 ++ turns2) = values_of turns1 ++ values_of turns2.
Proof using Type. apply flat_map_app. Qed.

Lemma caught_account (error : Error) (rest : list turn) tr :
  yields [(caught error rest tr).1] = [] /\
  outputs (trace (caught error rest tr).2) = outputs tr /\
  phase_of (caught error rest tr).2 = Errored error /\
  ahead (caught error rest tr).2 = rest.
Proof using Type.
  rewrite caught_eq. cbn [fst snd trace phase_of ahead].
  split; [|split; [|split; reflexivity]].
  - unfold XStream.settles.
    destruct (onSSEError options) as [f|]; [destruct (f tr error)|]; reflexivity.
  - rewrite !outputs_app. destruct (onSSEError options); cbn;
      now rewrite app_nil_r.
Qed.

Lemma loop_account turns tr :
  exists used,
    turns = used ++ ahead (loop turns tr).2 /\
    accounted used [(loop turns tr).1] tr (loop turns tr).2.
Proof using Type.
  unfold XStream.accounted.
  revert tr; induction turns as [|t rest IH]; intros tr.
  - exists []. split; [reflexivity|]. split; [|now left].
    cbn [XStream.loop snd fst trace]. rewrite outputs_app.
    cbn. now destruct (onSSEOutput options).
  - assert (Hcaught : forall error tr' (t0 : turn),
              values_of [t0] = [] -> outputs tr' = outputs tr ->
              exists used,
                t0 :: rest = used ++ ahead (caught error rest tr').2 /\
                outputs (trace (caught error rest tr').2) =
                  outputs tr
                    ++ (if registered (onSSEOutput options)
                        then List.filter truthy (values_of used) else []) /\
                (yields [(caught error rest tr').1] =
                   List.filter truthy (values_of used) \/
                 exists value f history error0,
                   List.filter truthy (values_of used) =
                     yields [(caught error rest tr').1] ++ [value] /\
                   onSSEOutput options = Some f /\
                   f history value = Throws error0 /\
                   phase_of (caught error rest tr').2 = Errored error0)).
    { intros error tr' t0 Ht0 Htr'.
      destruct (caught_account error rest tr') as (Hy & Ho & _ & Ha).
      exists [t0]. rewrite Ha, Hy, Ho, Htr', Ht0. cbn.
      split; [reflexivity|]. split; [|now left].
      destruct (onSSEOutput options); now rewrite app_nil_r. }
    destruct t as [[error|]|value| |error]; cbn [XStream.loop].
    + apply Hcaught; [reflexivity|]. rewrite outputs_app. cbn.
      now rewrite app_nil_r.
    + unfold call. destruct (onSSEAbort options) as [f|].
      * destruct (f (tr ++ [Cancel])) as [|error].
        -- exists [SignalAborted None]. split; [reflexivity|].
           split; [|now left]. cbn [snd trace]. rewrite !outputs_app. cbn.
           destruct (onSSEOutput options); now rewrite ?app_nil_r.
        -- apply Hcaught; [reflexivity|]. rewrite !outputs_app. cbn.
           now rewrite !app_nil_r.
      * exists [SignalAborted None]. split; [reflexivity|].
        split; [|now left]. cbn [snd trace]. rewrite !outputs_app. cbn.
        destruct (onSSEOutput options); now rewrite ?app_nil_r.
    + destruct (truthy value) eqn:Hv.
      * unfold call, applied. destruct (onSSEOutput options) as [f|] eqn:Hf.
        -- destruct (f (tr ++ [Read]) value) as [|error] eqn:Ho.
           ++ exists [Value value]. split; [reflexivity|].
              cbn [snd fst trace values_of flat_map app List.filter registered].
              rewrite Hv, !outputs_app. cbn. split; [now rewrite app_nil_r|].
              now left.
           ++ destruct (caught_account error rest ((tr ++ [Read]) ++ [CbOutput value]))
                as (Hy & Hout & Hp & Ha).
              exists [Value value]. rewrite Ha, Hy, Hout, Hp.
              split; [reflexivity|].
              cbn [values_of flat_map app List.filter registered].
              rewrite Hv, !outputs_app. cbn. split; [now rewrite app_nil_r|].
              right. exists value, f, (tr ++ [Read]), error. auto.
        -- exists [Value value]. split; [reflexivity|].
           cbn [snd fst trace values_of flat_map app List.filter registered].
           rewrite Hv, !outputs_app. cbn. split; [now rewrite !app_nil_r|].
           now left.
      * destruct (IH (tr ++ [Read])) as (used & Hused & Ho & Hy).
        exists (Value value :: used). split; [|split].
        -- cbn. now f_equal.
        -- rewrite Ho, outputs_app. cbn. rewrite Hv. now rewrite app_nil_r.
        -- cbn [values_of flat_map app List.filter]. rewrite Hv. exact Hy.
    + unfold call. destruct (onSSEComplete options) as [f|].
      * destruct (f (tr ++ [Read])) as [|error].
        -- exists [Closed]. split; [reflexivity|].
           split; [|now left]. cbn [snd trace]. rewrite !outputs_app. cbn.
           destruct (onSSEOutput options); now rewrite ?app_nil_r.
        -- apply Hcaught; [reflexivity|]. rewrite !outputs_app. cbn.
           now rewrite !app_nil_r.
      * exists [Closed]. split; [reflexivity|].
        split; [|now left]. cbn [snd trace]. rewrite !outputs_app. cbn.
        destruct (onSSEOutput options); now rewrite ?app_nil_r.
    + apply Hcaught; [reflexivity|]. rewrite outputs_app. cbn.
      now rewrite app_nil_r.
Qed.

Lemma idle_account s (r : iter_result) s' :
  yields [r] = [] -> trace s' = trace s -> ahead s' = ahead s ->
  exists used, ahead s = used ++ ahead s' /\ accounted used [r] (trace s) s'.
Proof using Type.
  intros Hy Htr Ha. exists []. rewrite Ha. split; [reflexivity|].
  unfold XStream.accounted. rewrite Hy, Htr. cbn. split; [|now left].
  destruct (onSSEOutput options); now rewrite app_nil_r.
Qed.

Lemma resume_account (r : request) s :
  exists used,
    ahead s = used ++ ahead (resume r s).2 /\
    accounted used [(resume r s).1] (trace s) (resume r s).2.
Proof using Type.
  destruct r; cbn [XStream.resume]; unfold XStream.next, XStream.return_.
  - destruct (phase_of s); try (now apply idle_account).
    + destruct (locked s); [now apply idle_account|].
      unfold call. destruct (onSSEStart options) as [f|].
      * destruct (f (trace s ++ [GetReader])) as [|error].
        -- destruct (loop_account (ahead s) ((trace s ++ [GetReader]) ++ [CbStart]))
             as (used & H1 & H2 & H3).
           exists used. split; [exact H1|]. split; [|exact H3].
           rewrite H2, !outputs_app. cbn. now rewrite !app_nil_r.
        -- destruct (caught_account error (ahead s)
                       ((trace s ++ [GetReader]) ++ [CbStart]))
             as (Hy & Hout & _ & Ha).
           exists []. rewrite Ha. split; [reflexivity|]. unfold XStream.accounted.
           rewrite Hy, Hout, !outputs_app. cbn. split; [|now left].
           destruct (onSSEOutput options); now rewrite !app_nil_r.
      * destruct (loop_account (ahead s) (trace s ++ [GetReader]))
          as (used & H1 & H2 & H3).
        exists used. split; [exact H1|]. split; [|exact H3].
        rewrite H2, !outputs_app. cbn. now rewrite !app_nil_r.
    + apply loop_account.
  - destruct (phase_of s); try (now apply idle_account).
    exists []. split; [reflexivity|]. unfold XStream.accounted.
    cbn [snd fst trace]. rewrite outputs_app. cbn. split; [|now left].
    destruct (onSSEOutput options); now rewrite ?app_nil_r.
Qed.

Lemma run_account (requests : list request) s :
  exists used,
    ahead s = used ++ ahead (run requests s).2 /\
    accounted used (run requests s).1 (trace s) (run requests s).2.
Proof using Type.
  revert s; induction requests as [|r rest IH]; intros s.
  - exists []. split; [reflexivity|]. unfold XStream.accounted. cbn. split; [|now left].
    destruct (onSSEOutput options); now rewrite app_nil_r.
  - cbn [XStream.run].
    destruct (resume_account r s) as (used1 & H1 & H2 & H3).
    destruct (XStream.resume truthy options r s) as [res s1]. cbn [fst snd] in *.
    destruct H3 as [H3 | (value & f & history & error & H3 & Hf & Ht & Hp)].
    + destruct (IH s1) as (used2 & H4 & H5 & H6).
      destruct (XStream.run truthy options rest s1) as [results s2].
      cbn [fst snd] in *.
      exists (used1 ++ used2). split; [|split].
      * rewrite H1, H4. now rewrite app_assoc.
      * rewrite H5, H2, values_of_app, List.filter_app.
        destruct (onSSEOutput options); now rewrite <- ?app_assoc, ?app_nil_r.
      * rewrite (yields_cons res results), values_of_app, List.filter_app, H3.
        destruct H6 as [H6 | (value & f & history & error & H6 & Hf & Ht & Hp)].
        -- left. now rewrite H6.
        -- right. exists value, f, history, error.
           rewrite H6. now rewrite app_assoc.
    + rewrite (run_finished truthy options s1 rest) by now rewrite Hp.
      cbn [fst snd]. exists used1. split; [exact H1|]. split; [exact H2|].
      right. exists value, f, history, error.
      rewrite (yields_cons res), yields_done, app_nil_r. auto.
Qed.


(** What the closing of a trace adds to the counts of the reader's
    events. *)
Lemma closing_counts (p : phase) (tail : list event) :
  p <> NotStarted -> p <> Unopened ->
  closing p tail ->
  count is_get_reader tail = 0 /\
  count is_start tail = 0 /\
  count is_release tail = (if holds p then 0 else 1) /\
  count is_cancel tail <= 1 /\
  match p with
  | Aborted => count is_cancel tail = 1
  | Errored _ => True
  | _ => count is_cancel tail = 0
  end.
Proof using Type.
  intros Hp1 Hp2.
  destruct p as [| | | | |error| |]; try congruence; cbn [XStream.closing];
    try (intros ->; cbn; repeat split; lia).
  - intros ->. destruct (onSSEComplete options); cbn; repeat split; lia.
  - intros ->. destruct (onSSEAbort options); cbn; repeat split; lia.
  - intros (mid & Hmid & ->).
    destruct Hmid as [-> | [-> | [[-> _] | [-> _]]]];
      destruct (onSSEError options); cbn; repeat split; lia.
Qed.

(** X16.  The reader is handled the same way on every path, whatever the
    callbacks do.  Before the first request, and when the generator is
    finished without having been entered, nothing has happened.
    Otherwise the reader was obtained once and the start callback (when
    registered) called once; the lock is held while the loop runs or
    waits and has been released exactly once when the generator is
    finished by completion, abort, error or a return of the consumer;
    the reader is cancelled at most once: once when the session ends in
    [Aborted], and never when it runs, waits, completes or is returned
    from. *)
Theorem reader_discipline turns (requests : list request) :
  let s := (run requests (start turns)).2 in
  match phase_of s with
  | NotStarted | Unopened => trace s = []
  | p =>
      count is_get_reader (trace s) = 1 /\
      count is_start (trace s) =
        (if registered (onSSEStart options) then 1 else 0) /\
      count is_release (trace s) = (if holds p then 0 else 1) /\
      locked s = holds p /\
      count is_cancel (trace s) <= 1 /\
      match p with
      | Aborted => count is_cancel (trace s) = 1
      | Errored _ => True
      | _ => count is_cancel (trace s) = 0
      end
  end.
Proof using Type.
  intros s.
  pose proof (reachable_invariant truthy options turns requests) as Hinv.
  fold s in Hinv. unfold XStream.invariant in Hinv.
  assert (Hgen : forall p,
    p <> NotStarted -> p <> Unopened ->
    (exists body tail, Forall (fun e => is_body e = true) body /\
                       closing p tail /\ trace s = opening ++ body ++ tail) /\
    locked s = holds p ->
    count is_get_reader (trace s) = 1 /\
    count is_start (trace s) =
      (if registered (onSSEStart options) then 1 else 0) /\
    count is_release (trace s) = (if holds p then 0 else 1) /\
    locked s = holds p /\
    count is_cancel (trace s) <= 1 /\
    match p with
    | Aborted => count is_cancel (trace s) = 1
    | Errored _ => True
    | _ => count is_cancel (trace s) = 0
    end).
  { intros p Hp1 Hp2 [(body & tail & Hbody & Htail & Htr) Hl].
    rewrite Htr, !count_app.
    rewrite !(count_body _ body) by
      (try exact Hbody; intros e; destruct e; cbn; congruence).
    destruct (closing_counts p tail Hp1 Hp2 Htail) as (H1 & H2 & H3 & H4 & H5).
    rewrite H1, H2, H3.
    assert (Ho1 : count is_get_reader opening = 1)
      by (unfold XStream.opening; destruct (onSSEStart options); reflexivity).
    assert (Ho2 : count is_start opening =
                  (if registered (onSSEStart options) then 1 else 0))
      by (unfold XStream.opening; destruct (onSSEStart options); reflexivity).
    assert (Ho3 : count is_release opening = 0)
      by (unfold XStream.opening; destruct (onSSEStart options); reflexivity).
    assert (Ho4 : count is_cancel opening = 0)
      by (unfold XStream.opening; destruct (onSSEStart options); reflexivity).
    rewrite Ho1, Ho2, Ho3, Ho4.
    repeat split; try lia; try exact Hl.
    destruct p; cbn in *; lia. }
  destruct (phase_of s) as [| | | | |error| |] eqn:Hp.
  - apply Hinv.
  - now apply (Hgen Running).
  - now apply (Hgen Stalled).
  - now apply (Hgen Completed).
  - now apply (Hgen Aborted).
  - now apply (Hgen (Errored error)).
  - now apply (Hgen Returned).
  - exact Hinv.
Qed.

Lemma for_await_closes (values : list Output) :
  returns (onSSEStart options) ->
  returns_on (onSSEOutput options) ->
  returns (onSSEComplete options) ->
  for_await_of (start (closing_stream values)) =
  (List.filter truthy values, Some Finished,
   {| phase_of := Completed; ahead := []; locked := false;
      trace := opening ++ body_of values ++ [Read]
                 ++ logged (registered (onSSEComplete options)) CbComplete
                 ++ [ReleaseLock] |}).
Proof using Type.
  intros Hs Ho Hc. unfold XStream.for_await_of, closing_stream.
  rewrite (for_await_values truthy options values [Closed] Ho _ _ opening).
  - cbn [XStream.loop]. rewrite (call_returns _ _ _ Hc). cbn [fst snd completion_of].
    now rewrite <- !app_assoc.
  - cbn. rewrite length_app, length_map. cbn. lia.
  - now apply next_start.
  - cbn [XStream.loop]. now rewrite (call_returns _ _ _ Hc).
Qed.




Lemma run_app (requests1 requests2 : list request) s :
  run (requests1 ++ requests2) s =
  ((run requests1 s).1 ++ (run requests2 (run requests1 s).2).1,
   (run requests2 (run requests1 s).2).2).
Proof using Type.
  revert s; induction requests1 as [|r rest IH]; intros s.
  - cbn. now destruct (XStream.run truthy options requests2 s).
  - cbn [app XStream.run]. destruct (XStream.resume truthy options r s) as [res s1].
    rewrite (IH s1). destruct (XStream.run truthy options rest s1) as [results s2].
    reflexivity.
Qed.

(** X20.  Leaving the loop early: when the consumer returns at a [yield]
    (a [break] in [for await]), the lock is released and the iterator is
    finished, but no terminal callback is called and the source is not
    cancelled; later requests do nothing. *)
Theorem early_return turns (requests more : list request) :
  let s0 := (run requests (start turns)).2 in
  let s := (run (requests ++ [Return]) (start turns)).2 in
  phase_of s0 = Running ->
  phase_of s = Returned /\
  locked s = false /\
  trace s = trace s0 ++ [ReleaseLock] /\
  count is_terminal (trace s) = 0 /\
  count is_cancel (trace s) = 0 /\
  run more s = (map (fun _ => Done) more, s).
Proof using Type.
  intros s0 s Hp.
  assert (Hs : s = {| phase_of := Returned; ahead := ahead s0; locked := false;
                      trace := trace s0 ++ [ReleaseLock] |}).
  { subst s. rewrite run_app. fold s0. cbn [XStream.run XStream.resume snd].
    unfold XStream.return_. now rewrite Hp. }
  pose proof (reachable_invariant truthy options turns requests) as Hinv.
  fold s0 in Hinv. unfold XStream.invariant in Hinv. rewrite Hp in Hinv.
  destruct Hinv as [(body & tail & Hbody & Htail & Htr) _].
  cbn in Htail. subst tail. rewrite app_nil_r in Htr.
  rewrite Hs. cbn [phase_of locked trace].
  repeat split.
  - rewrite Htr, !count_app.
    rewrite (count_body is_terminal body) by
      (try exact Hbody; intros e; destruct e; cbn; congruence).
    rewrite count_opening by reflexivity. reflexivity.
  - rewrite Htr, !count_app.
    rewrite (count_body is_cancel body) by
      (try exact Hbody; intros e; destruct e; cbn; congruence).
    rewrite count_opening by reflexivity. reflexivity.
  - now apply run_finished.
Qed.

(** X21.  Iterating a stream whose reader is already taken: the first
    request is rejected with the [TypeError] of [getReader()], which is
    outside [try]; no callback is called, the error callback included, the
    lock of the other reader is left alone, and the iterator is finished. *)
Theorem locked_stream_rejected turns tr (more : list request) :
  let s := {| phase_of := NotStarted; ahead := turns; locked := true;
              trace := tr |} in
  run (Next :: more) s =
  (ThrownLocked :: map (fun _ => Done) more,
   {| phase_of := Unopened; ahead := turns; locked := true; trace := tr |}) /\
  for_await_of s =
  ([], Some (Raised ThrownLocked),
   {| phase_of := Unopened; ahead := turns; locked := true; trace := tr |}).
Proof using Type.
  intros s.
  set (final := {| phase_of := Unopened; ahead := turns; locked := true;
                   trace := tr |}).
  assert (Hnext : next s = (ThrownLocked, final)) by reflexivity.
  split.
  - cbn [XStream.run XStream.resume]. rewrite Hnext.
    now rewrite (run_finished truthy options final more eq_refl).
  - unfold XStream.for_await_of. cbn [XStream.for_await]. now rewrite Hnext.
Qed.

Lemma callbacks_body_of (values : list Output) :
  callbacks (body_of values) =
  flat_map (fun v => logged (registered (onSSEOutput options)) (CbOutput v))
    (List.filter truthy values).
Proof using Type.
  induction values as [|v vs IH]; [reflexivity|].
  cbn [XStream.body_of flat_map]. fold (body_of vs).
  unfold callbacks in *. cbn [List.filter is_callback is_start is_output is_terminal
    is_complete is_abort is_error orb].
  rewrite List.filter_app, IH.
  destruct (truthy v), (onSSEOutput options); reflexivity.
Qed.

End IteratorMore.





Lemma early_return_witness :
  let turns : list (@turn (list N) string) :=
    [Value (lit "a"); Value (lit "b"); Closed] in
  let s0 := (run truthy_string all_callbacks [Next] (start turns)).2 in
  let s := (run truthy_string all_callbacks ([Next] ++ [Return]) (start turns)).2 in
  phase_of s = Returned /\
  locked s = false /\
  trace s = trace s0 ++ [ReleaseLock] /\
  count is_terminal (trace s) = 0 /\
  count is_cancel (trace s) = 0 /\
  run truthy_string all_callbacks [Next] s = (map (fun _ => Done) [Next], s).
Proof.
  intros turns s0 s.
  apply (early_return truthy_string all_callbacks turns [Next] [Next]).
  reflexivity.
Defined.

(** ** The default pipeline and the iteration together *)

Lemma filter_truthy_object (records : list (gmap (list N) (list N))) :
  List.filter truthy_object records = records.
Proof. induction records as [|r l IH]; [reflexivity|]. cbn. now rewrite IH. Qed.

(** X22.  End to end, with the default stages: when the final stage
    delivers the records of the default pipeline and closes, without
    signal and with start, output and complete callbacks that do not
    throw, the consumer's loop receives exactly these records, in order
    and none dropped (a record is an object, hence truthy), then ends
    normally; the callbacks are the start, one output per record in
    order, and the completion. *)
Theorem XStream_default_end_to_end (Error : Type)
    (decoderStream : TransformStream (list Byte.byte) (list N))
    (options : @XStreamOptions (gmap (list N) (list N)) Error)
    (chunks : list (list Byte.byte))
    (STREAM_SEPARATOR PART_SEPARATOR KV_SEPARATOR : list N) :
  returns (onSSEStart options) ->
  returns_on (onSSEOutput options) ->
  returns (onSSEComplete options) ->
  let records :=
    defaultPipeline decoderStream STREAM_SEPARATOR PART_SEPARATOR KV_SEPARATOR
      chunks in
  exists s : @session (gmap (list N) (list N)) Error,
    for_await_of truthy_object options (start (closing_stream records)) =
      (records, Some Finished, s) /\
    phase_of s = Completed /\
    locked s = false /\
    callbacks (trace s) =
      logged (registered (onSSEStart options)) CbStart
        ++ flat_map (fun r => logged (registered (onSSEOutput options)) (CbOutput r))
             records
        ++ logged (registered (onSSEComplete options)) CbComplete.
Proof.
  intros Hs Ho Hc records.
  eexists. rewrite (for_await_closes _ _ _ Hs Ho Hc), filter_truthy_object.
  split; [reflexivity|]. split; [reflexivity|]. split; [reflexivity|].
  cbn [trace]. unfold callbacks. rewrite !List.filter_app.
  fold (@callbacks _ Error (@body_of _ Error truthy_object options records)).
  rewrite callbacks_body_of, filter_truthy_object.
  unfold XStream.opening.
  destruct (onSSEStart options), (onSSEComplete options); cbn;
    now rewrite ?app_nil_r.
Qed.

Lemma XStream_default_end_to_end_witness :
  let records :=
    defaultPipeline asciiDecoderStream DEFAULT_STREAM_SEPARATOR
      DEFAULT_PART_SEPARATOR DEFAULT_KV_SEPARATOR
      [bytes "data: a"; [Byte.x0a; Byte.x0a]; bytes "data: b"] in
  exists s : @session (gmap (list N) (list N)) string,
    for_await_of truthy_object all_callbacks (start (closing_stream records)) =
      (records, Some Finished, s) /\
    phase_of s = Completed /\
    locked s = false /\
    callbacks (trace s) =
      [CbStart] ++ flat_map (fun r => [CbOutput r]) records ++ [CbComplete].
Proof.
  apply (XStream_default_end_to_end string asciiDecoderStream all_callbacks
           [bytes "data: a"; [Byte.x0a; Byte.x0a]; bytes "data: b"]
           DEFAULT_STREAM_SEPARATOR DEFAULT_PART_SEPARATOR DEFAULT_KV_SEPARATOR).
  - intros f history [= <-]. reflexivity.
  - intros f history a [= <-]. reflexivity.
  - intros f history [= <-]. reflexivity.
Defined.
